(** * State-vector simulator of LogosQBenchmarks (cpp/src/quantum_simulator.cpp)

    A shallow embedding of the C++ simulation core: [QuantumState] with its
    constructor, [apply_single_gate], [apply_controlled_gate] and
    [get_probability]; the gate library [Gates]; [QuantumCircuit] with its
    builders and [execute]; and the circuits and reports of
    [BenchmarkRunner].

    Conventions of the embedding.
    - [size_t] is an unsigned 64-bit integer, embedded in [N]; the one
      operation of the source that can leave the 64-bit range, [1ULL << k],
      has its wrap-around written out ([shl1]). A shift by 64 or more is
      undefined in C++; every theorem whose result depends on the value of
      a shift keeps the shift count below 64, or states the result both
      for the wrapped value and for the count taken modulo 64.
    - [double] is IEEE 754 binary64, embedded as Rocq's primitive [float]
      (round to nearest even, signed zeros, infinities, one NaN).
      [std::complex<double>] is a pair of doubles; [operator+],
      [operator*] and [std::norm] are the component formulas of the C++
      standard library.
    - [std::cos], [std::sin] and the complex [std::exp] are parameters of
      the rotation gates.
    - [Eigen::VectorXcd] is a list of amplitudes, read and written by index.
    - A method that writes its receiver is a function from the receiver to
      the updated receiver; a [const] method that returns a value returns
      the value together with the receiver (the one-line accessors of the
      header return the value alone).
    - The clock, the memory probe and the random engine of the benchmark
      functions are inputs; a loop that may not end carries a bound on its
      iterations and returns [None] when the bound is reached. *)

From Stdlib Require Import Floats NArith ZArith List Lia Bool.
From stdpp Require Import base list strings pretty.

Local Open Scope N_scope.

(** ** Machine integers *)

Definition size_t := N.

Definition SIZE_WIDTH : N := 64.

(** [1ULL << k] on 64 bits. *)
Definition shl1 (k : size_t) : size_t := N.shiftl 1 k mod 2 ^ SIZE_WIDTH.

(** [(i >> k) & 1]. For [k >= 64] the shift is undefined in C++ (an x86-64
    build takes the count modulo 64); the model gives 0 there, and no
    theorem on the result of a gate application relies on that value: the
    shift counts are kept below 64, except where index 64 itself is the
    subject and both readings are stated. *)
Definition bit_at (i k : size_t) : size_t := N.land (N.shiftr i k) 1.

(** ** Complex numbers: [using Complex = std::complex<double>] *)

Record Complex := mkComplex { real : float; imag : float }.

(** [operator+]: component by component. *)
Definition cadd (a b : Complex) : Complex :=
  mkComplex (real a + real b)%float (imag a + imag b)%float.

(** [operator*]: [(ac - bd, ad + bc)], each operation rounded. This is the
    value of the library product unless both components come out NaN; in
    that case the library recomputes infinities (C99 Annex G), which is
    not modelled. With finite operands whose four partial products are
    finite, as for a gate entry of magnitude at most 1 and a finite
    amplitude, no component is NaN; the theorems that depend on the value
    of a product take finite amplitudes. *)
Definition cmul (a b : Complex) : Complex :=
  mkComplex (real a * real b - imag a * imag b)%float
            (real a * imag b + imag a * real b)%float.

(** [std::norm]: [re * re + im * im]. *)
Definition norm (a : Complex) : float :=
  (real a * real a + imag a * imag a)%float.

(** Conversion of a real scalar to [Complex], as in [gate << 0, 1, ...]. *)
Definition of_real (x : float) : Complex := mkComplex x 0%float.

Definition czero : Complex := mkComplex 0%float 0%float.

(** ** [using StateVector = Eigen::VectorXcd] *)

Abbreviation StateVector := (list Complex).

(** [StateVector::Zero(size)] *)
Definition Zero (size : size_t) : StateVector := replicate (N.to_nat size) czero.

(** [v.size()] *)
Definition vsize (v : StateVector) : size_t := N.of_nat (length v).

(** [v(i)] as an rvalue. Every read of the source is within bounds; the
    default is never returned by the functions below. *)
Definition vget (v : StateVector) (i : size_t) : Complex :=
  default czero (v !! N.to_nat i).

(** [v(i) = x] *)
Definition vset (v : StateVector) (i : size_t) (x : Complex) : StateVector :=
  <[N.to_nat i := x]> v.

(** ** [using Gate = Eigen::Matrix2cd] *)

Record Gate := mkGate { g00 : Complex; g01 : Complex; g10 : Complex; g11 : Complex }.

(** ** [class QuantumState] *)

Record QuantumState := mkState { amplitudes_ : StateVector; num_qubits_ : size_t }.

(** [QuantumState::QuantumState(size_t num_qubits)] *)
Definition QuantumState_new (num_qubits : size_t) : QuantumState :=
  let size := shl1 num_qubits in
  let amplitudes := Zero size in
  let amplitudes := vset amplitudes 0 (mkComplex 1%float 0%float) in
  mkState amplitudes num_qubits.

(** [for (size_t i = start; i < start + count; ++i) body] over a loop-carried
    vector. *)
Fixpoint for_range (count : nat) (i : size_t)
    (body : size_t -> StateVector -> StateVector) (acc : StateVector) : StateVector :=
  match count with
  | O => acc
  | S count' => for_range count' (N.succ i) body (body i acc)
  end.

(** The two assignments to [new_amplitudes(i)] and [new_amplitudes(j)]. *)
Definition write_pair (gate : Gate) (old : StateVector) (i j : size_t)
    (new_amplitudes : StateVector) : StateVector :=
  let amp0 := vget old i in
  let amp1 := vget old j in
  let new_amplitudes :=
    vset new_amplitudes i (cadd (cmul (g00 gate) amp0) (cmul (g01 gate) amp1)) in
  vset new_amplitudes j (cadd (cmul (g10 gate) amp0) (cmul (g11 gate) amp1)).

(** Body of the loop of [apply_single_gate]. *)
Definition single_body (gate : Gate) (qubit size : size_t) (old : StateVector)
    (i : size_t) (new_amplitudes : StateVector) : StateVector :=
  if bit_at i qubit =? 0 then
    let j := N.lor i (shl1 qubit) in
    if j <? size then write_pair gate old i j new_amplitudes
    else new_amplitudes
  else new_amplitudes.

(** [void QuantumState::apply_single_gate(const Gate& gate, size_t qubit)] *)
Definition apply_single_gate (gate : Gate) (qubit : size_t) (self : QuantumState)
    : QuantumState :=
  let size := vsize (amplitudes_ self) in
  let new_amplitudes := amplitudes_ self in
  let new_amplitudes :=
    for_range (N.to_nat size) 0 (single_body gate qubit size (amplitudes_ self))
      new_amplitudes in
  mkState new_amplitudes (num_qubits_ self).

(** Body of the loop of [apply_controlled_gate]. *)
Definition controlled_body (gate : Gate) (control target size : size_t)
    (old : StateVector) (i : size_t) (new_amplitudes : StateVector) : StateVector :=
  if bit_at i control =? 1 then
    if bit_at i target =? 0 then
      let j := N.lor i (shl1 target) in
      if j <? size then write_pair gate old i j new_amplitudes
      else new_amplitudes
    else new_amplitudes
  else new_amplitudes.

(** [void QuantumState::apply_controlled_gate(const Gate&, size_t control, size_t target)] *)
Definition apply_controlled_gate (gate : Gate) (control target : size_t)
    (self : QuantumState) : QuantumState :=
  let size := vsize (amplitudes_ self) in
  let new_amplitudes := amplitudes_ self in
  let new_amplitudes :=
    for_range (N.to_nat size) 0
      (controlled_body gate control target size (amplitudes_ self))
      new_amplitudes in
  mkState new_amplitudes (num_qubits_ self).

(** [double QuantumState::get_probability(size_t state) const] *)
Definition get_probability (self : QuantumState) (state : size_t)
    : float * QuantumState :=
  if state <? vsize (amplitudes_ self)
  then (norm (vget (amplitudes_ self) state), self)
  else (0%float, self).

(** ** [class Gates] *)

Module Gates.

Definition pauli_x : Gate :=
  mkGate (of_real 0) (of_real 1)
         (of_real 1) (of_real 0).

Definition pauli_y : Gate :=
  mkGate (of_real 0) (mkComplex 0 (-1))
         (mkComplex 0 1) (of_real 0).

Definition pauli_z : Gate :=
  mkGate (of_real 1) (of_real 0)
         (of_real 0) (of_real (-1)).

Definition hadamard : Gate :=
  let inv_sqrt2 := (1 / PrimFloat.sqrt 2)%float in
  mkGate (of_real inv_sqrt2) (of_real inv_sqrt2)
         (of_real inv_sqrt2) (of_real (- inv_sqrt2)%float).

(** The rotation gates call [std::cos], [std::sin] and the complex
    [std::exp] of the C++ standard library, which are taken as parameters. *)
Section Rotations.
Variables cos sin : float -> float.
Variable cexp : Complex -> Complex.

Definition rx (theta : float) : Gate :=
  let cos_half := cos (theta / 2)%float in
  let sin_half := sin (theta / 2)%float in
  mkGate (of_real cos_half) (mkComplex 0 (- sin_half)%float)
         (mkComplex 0 (- sin_half)%float) (of_real cos_half).

Definition ry (theta : float) : Gate :=
  let cos_half := cos (theta / 2)%float in
  let sin_half := sin (theta / 2)%float in
  mkGate (of_real cos_half) (of_real (- sin_half)%float)
         (of_real sin_half) (of_real cos_half).

Definition rz (theta : float) : Gate :=
  let exp_neg := cexp (mkComplex 0 ((- theta) / 2)%float) in
  let exp_pos := cexp (mkComplex 0 (theta / 2)%float) in
  mkGate exp_neg (of_real 0)
         (of_real 0) exp_pos.
End Rotations.

End Gates.

(** ** [struct Operation] *)

Inductive OperationType := SINGLE_GATE | CONTROLLED_GATE.

Record Operation := mkOperation {
  type : OperationType;
  gate : Gate;
  qubit : size_t;
  control : size_t;
  target : size_t
}.

(** ** [class QuantumCircuit] *)

Module QuantumCircuit.

Record t := mk { num_qubits_ : size_t; operations_ : list Operation }.

(** [QuantumCircuit::QuantumCircuit(size_t num_qubits)] *)
Definition new (num_qubits : size_t) : t := mk num_qubits [].

(** [operations_.push_back(op); return *this;] *)
Definition push_back (op : Operation) (self : t) : t :=
  mk (num_qubits_ self) (operations_ self ++ [op]).

Definition h (qubit : size_t) (self : t) : t :=
  push_back (mkOperation SINGLE_GATE Gates.hadamard qubit 0 0) self.

Definition x (qubit : size_t) (self : t) : t :=
  push_back (mkOperation SINGLE_GATE Gates.pauli_x qubit 0 0) self.

Definition y (qubit : size_t) (self : t) : t :=
  push_back (mkOperation SINGLE_GATE Gates.pauli_y qubit 0 0) self.

Definition z (qubit : size_t) (self : t) : t :=
  push_back (mkOperation SINGLE_GATE Gates.pauli_z qubit 0 0) self.

Section Rotations.
Variables cos sin : float -> float.
Variable cexp : Complex -> Complex.

Definition rx (qubit : size_t) (theta : float) (self : t) : t :=
  push_back (mkOperation SINGLE_GATE (Gates.rx cos sin theta) qubit 0 0) self.

Definition ry (qubit : size_t) (theta : float) (self : t) : t :=
  push_back (mkOperation SINGLE_GATE (Gates.ry cos sin theta) qubit 0 0) self.

Definition rz (qubit : size_t) (theta : float) (self : t) : t :=
  push_back (mkOperation SINGLE_GATE (Gates.rz cexp theta) qubit 0 0) self.
End Rotations.

Definition cnot (control target : size_t) (self : t) : t :=
  push_back (mkOperation CONTROLLED_GATE Gates.pauli_x 0 control target) self.

(** The range-for loop of [execute]: the operations are visited from the
    front of the vector, each one updating the local [state]. *)
Fixpoint run_operations (ops : list Operation) (state : QuantumState) : QuantumState :=
  match ops with
  | [] => state
  | op :: rest =>
      run_operations rest
        (match type op with
         | SINGLE_GATE => apply_single_gate (gate op) (qubit op) state
         | CONTROLLED_GATE => apply_controlled_gate (gate op) (control op) (target op) state
         end)
  end.

(** [QuantumState QuantumCircuit::execute() const] *)
Definition execute (self : t) : QuantumState * t :=
  let state := QuantumState_new (num_qubits_ self) in
  let state := run_operations (operations_ self) state in
  (state, self).

End QuantumCircuit.

(** ** Inline accessors of the header *)

(** [size_t QuantumState::size() const] *)
Definition QuantumState_size (self : QuantumState) : size_t := vsize (amplitudes_ self).

(** [size_t QuantumState::num_qubits() const] *)
Definition QuantumState_num_qubits (self : QuantumState) : size_t := num_qubits_ self.

(** [size_t QuantumCircuit::num_operations() const] *)
Definition num_operations (self : QuantumCircuit.t) : size_t :=
  N.of_nat (length (QuantumCircuit.operations_ self)).

(** ** [class BenchmarkRunner]

    The clock and the memory probe are the environment of the benchmark
    functions: their readings are inputs of the model. The random engine
    and the distributions of [<random>] are parameters. *)

(** Arithmetic of [size_t]. *)
Definition size_add (a b : size_t) : size_t := (a + b) mod 2 ^ SIZE_WIDTH.

Definition size_sub (a b : size_t) : size_t :=
  (a + (2 ^ SIZE_WIDTH - b mod 2 ^ SIZE_WIDTH)) mod 2 ^ SIZE_WIDTH.

Definition size_mul (a b : size_t) : size_t := (a * b) mod 2 ^ SIZE_WIDTH.

(** Conversion of an [unsigned long long] to [double], rounding to nearest. *)
Definition double_of_size_t (x : size_t) : float :=
  SF2Prim (binary_normalize prec emax (Z.of_N x) 0%Z false).

(** Conversion of a [size_t] to [int] (the low 32 bits, signed) and of an
    [int] to [size_t]. *)
Definition int_of_size_t (x : size_t) : Z :=
  let r := (Z.of_N x mod 2 ^ 32)%Z in
  if (r <? 2 ^ 31)%Z then r else (r - 2 ^ 32)%Z.

Definition size_t_of_int (z : Z) : size_t := Z.to_N (z mod 2 ^ 64)%Z.

(** [const double PI = M_PI;] *)
Definition PI : float := 0x1.921fb54442d18p+1%float.

(** [for (size_t i = start; i < start + count; ++i) body] over any
    loop-carried value. *)
Fixpoint for_loop {A : Type} (count : nat) (i : size_t)
    (body : size_t -> A -> A) (acc : A) : A :=
  match count with
  | O => acc
  | S count' => for_loop count' (N.succ i) body (body i acc)
  end.

(** [struct BenchmarkResult] *)
Module BenchmarkResult.

Record t := mk {
  name : string;
  num_qubits : size_t;
  num_gates : size_t;
  execution_time_ms : float;
  memory_usage_mb : float;
  circuit_depth : size_t
}.

End BenchmarkResult.

(** What a benchmark function reads from its environment: the two results
    of [get_memory_usage()] and [duration.count()] as a [double]. *)
Record Readings := mkReadings {
  start_memory : float;
  end_memory : float;
  duration_count : float
}.

Module BenchmarkRunner.

(** The circuit built by [benchmark_ghz_state]. *)
Definition ghz_circuit (num_qubits : size_t) : QuantumCircuit.t :=
  let circuit := QuantumCircuit.new num_qubits in
  let circuit := QuantumCircuit.h 0 circuit in
  for_loop (N.to_nat (num_qubits - 1)) 1
    (fun i circuit => QuantumCircuit.cnot 0 i circuit) circuit.

(** [BenchmarkResult BenchmarkRunner::benchmark_ghz_state(size_t num_qubits)] *)
Definition benchmark_ghz_state (env : Readings) (num_qubits : size_t)
    : BenchmarkResult.t :=
  let circuit := ghz_circuit num_qubits in
  let final_state := fst (QuantumCircuit.execute circuit) in
  BenchmarkResult.mk
    ("GHZ-" +:+ pretty num_qubits)
    num_qubits
    num_qubits
    (duration_count env / 1000)%float
    (end_memory env - start_memory env)%float
    2.

Section LibraryParameters.
Variables cos sin : float -> float.
Variable cexp : Complex -> Complex.

(** The body of the inner loop of [benchmark_qft_circuit]. *)
Definition qft_inner (i j : size_t) (circuit : QuantumCircuit.t) : QuantumCircuit.t :=
  let angle := PrimFloat.div PI (double_of_size_t (shl1 (size_sub j i))) in
  let circuit := QuantumCircuit.rz cexp j angle circuit in
  let circuit := QuantumCircuit.cnot j i circuit in
  let circuit := QuantumCircuit.rz cexp j (- angle)%float circuit in
  QuantumCircuit.cnot j i circuit.

(** The body of the outer loop. *)
Definition qft_outer (num_qubits i : size_t) (circuit : QuantumCircuit.t)
    : QuantumCircuit.t :=
  let circuit := QuantumCircuit.h i circuit in
  for_loop (N.to_nat (num_qubits - (i + 1))) (i + 1) (qft_inner i) circuit.

(** The circuit built by [benchmark_qft_circuit]. *)
Definition qft_circuit (num_qubits : size_t) : QuantumCircuit.t :=
  let circuit := QuantumCircuit.new num_qubits in
  for_loop (N.to_nat num_qubits) 0 (qft_outer num_qubits) circuit.

(** [BenchmarkResult BenchmarkRunner::benchmark_qft_circuit(size_t num_qubits)] *)
Definition benchmark_qft_circuit (env : Readings) (num_qubits : size_t)
    : BenchmarkResult.t :=
  let circuit := qft_circuit num_qubits in
  let final_state := fst (QuantumCircuit.execute circuit) in
  let num_gates :=
    size_add num_qubits (size_mul (size_mul num_qubits (size_sub num_qubits 1)) 2) in
  BenchmarkResult.mk
    ("QFT-" +:+ pretty num_qubits)
    num_qubits
    num_gates
    (duration_count env / 1000)%float
    (end_memory env - start_memory env)%float
    (size_mul num_qubits 2).

(** [std::mt19937] with state [G]; [uniform_int a b] and [uniform_real a b]
    are [std::uniform_int_distribution<>(a, b)] and
    [std::uniform_real_distribution<>(a, b)] applied to the engine. *)
Variable G : Type.
Variable uniform_int : Z -> Z -> G -> Z * G.
Variable uniform_real : float -> float -> G -> float * G.

(** The [switch] on the gate type. *)
Definition random_gate (gate_type : Z) (qubit : size_t) (angle : float)
    (circuit : QuantumCircuit.t) : QuantumCircuit.t :=
  match gate_type with
  | 0%Z => QuantumCircuit.h qubit circuit
  | 1%Z => QuantumCircuit.x qubit circuit
  | 2%Z => QuantumCircuit.y qubit circuit
  | 3%Z => QuantumCircuit.z qubit circuit
  | 4%Z => QuantumCircuit.rx cos sin qubit angle circuit
  | 5%Z => QuantumCircuit.ry cos sin qubit angle circuit
  | _ => QuantumCircuit.rz cexp qubit angle circuit
  end.

(** Body of the first loop: three draws, then one gate. *)
Definition random_gate_step (num_qubits : size_t) (i : size_t)
    (acc : QuantumCircuit.t * G) : QuantumCircuit.t * G :=
  let '(circuit, gen) := acc in
  let '(gate_type, gen) := uniform_int 0 5 gen in
  let '(q, gen) := uniform_int 0 (int_of_size_t (size_sub num_qubits 1)) gen in
  let qubit := size_t_of_int q in
  let '(angle, gen) := uniform_real 0%float (2 * PI)%float gen in
  (random_gate gate_type qubit angle circuit, gen).

(** [while (target == control) target = qubit_dist(gen);], with the number
    of iterations bounded by [fuel]; [None] when the bound is reached. *)
Fixpoint redraw_target (fuel : nat) (num_qubits control target : size_t) (gen : G)
    : option (size_t * G) :=
  if target =? control then
    match fuel with
    | O => None
    | S fuel' =>
        let '(t, gen) := uniform_int 0 (int_of_size_t (size_sub num_qubits 1)) gen in
        redraw_target fuel' num_qubits control (size_t_of_int t) gen
    end
  else Some (target, gen).

(** Body of the second loop: two draws, the redraw loop, one [cnot]. *)
Definition random_cnot_step (fuel : nat) (num_qubits : size_t) (i : size_t)
    (acc : option (QuantumCircuit.t * G)) : option (QuantumCircuit.t * G) :=
  match acc with
  | None => None
  | Some (circuit, gen) =>
      let '(c, gen) := uniform_int 0 (int_of_size_t (size_sub num_qubits 1)) gen in
      let control := size_t_of_int c in
      let '(t, gen) := uniform_int 0 (int_of_size_t (size_sub num_qubits 1)) gen in
      let target := size_t_of_int t in
      match redraw_target fuel num_qubits control target gen with
      | None => None
      | Some (target, gen) => Some (QuantumCircuit.cnot control target circuit, gen)
      end
  end.

(** The circuit built by [benchmark_random_circuit] from the engine [gen]. *)
Definition random_circuit (fuel : nat) (gen : G) (num_qubits num_gates : size_t)
    : option QuantumCircuit.t :=
  let circuit := QuantumCircuit.new num_qubits in
  let '(circuit, gen) :=
    for_loop (N.to_nat num_gates) 0 (random_gate_step num_qubits) (circuit, gen) in
  let num_cnots := num_gates / 4 in
  match for_loop (N.to_nat num_cnots) 0 (random_cnot_step fuel num_qubits)
          (Some (circuit, gen)) with
  | None => None
  | Some (circuit, _) => Some circuit
  end.

(** [BenchmarkResult BenchmarkRunner::benchmark_random_circuit(size_t, size_t)] *)
Definition benchmark_random_circuit (fuel : nat) (env : Readings) (gen : G)
    (num_qubits num_gates : size_t) : option BenchmarkResult.t :=
  match random_circuit fuel gen num_qubits num_gates with
  | None => None
  | Some circuit =>
      let final_state := fst (QuantumCircuit.execute circuit) in
      let num_cnots := num_gates / 4 in
      Some (BenchmarkResult.mk
              ("Random-" +:+ pretty num_qubits +:+ "-" +:+ pretty num_gates)
              num_qubits
              (size_add num_gates num_cnots)
              (duration_count env / 1000)%float
              (end_memory env - start_memory env)%float
              (size_add num_gates num_cnots))
  end.

End LibraryParameters.

End BenchmarkRunner.

(** * Vocabulary of the statements

    Predicates, relations and sample data used by the theorems below. *)

(** Both gate applications run the same pass: the indices selected by [sel]
    are paired with the index that has bit [t] set. *)
Definition pair_body (sel : size_t -> bool) (gate : Gate) (t size : size_t)
    (old : StateVector) (i : size_t) (new_amplitudes : StateVector) : StateVector :=
  if sel i then
    let j := N.lor i (shl1 t) in
    if j <? size then write_pair gate old i j new_amplitudes
    else new_amplitudes
  else new_amplitudes.

(** The test of [apply_single_gate] on the index [i]. *)
Definition single_sel (qubit i : size_t) : bool := bit_at i qubit =? 0.

(** The two nested tests of [apply_controlled_gate] on the index [i]. *)
Definition controlled_sel (control target i : size_t) : bool :=
  (bit_at i control =? 1) && (bit_at i target =? 0).

(** The two rows of the matrix-vector product on the pair [(i, j)]. *)
Definition row0 (gate : Gate) (old : StateVector) (i j : size_t) : Complex :=
  cadd (cmul (g00 gate) (vget old i)) (cmul (g01 gate) (vget old j)).

Definition row1 (gate : Gate) (old : StateVector) (i j : size_t) : Complex :=
  cadd (cmul (g10 gate) (vget old i)) (cmul (g11 gate) (vget old j)).

(** Iteration [i] has run among the first [m] and has written its pair. *)
Definition paired (sel : size_t -> bool) (t size m i : size_t) : bool :=
  (i <? m) && sel i && (N.setbit i t <? size).

(** Content of [new_amplitudes(k)] after the first [m] iterations. *)
Definition after_pass (sel : size_t -> bool) (gate : Gate) (t size : size_t)
    (old : StateVector) (m k : size_t) : Complex :=
  if N.testbit k t then
    let i := N.clearbit k t in
    if paired sel t size m i then row1 gate old i k else vget old k
  else
    if paired sel t size m k then row0 gate old k (N.setbit k t) else vget old k.

(** A state of [n] qubits: the class invariant of [QuantumState], a vector
    of [2^n] entries with [2^n] a [size_t]. *)
Definition n_qubit_state (n : size_t) (s : QuantumState) : Prop :=
  num_qubits_ s = n /\ n < SIZE_WIDTH /\ vsize (amplitudes_ s) = 2 ^ n.

(** A state of two qubits used to exercise the theorems: a Hadamard gate
    on qubit 0 of the all-zero state. *)
Definition plus_zero : QuantumState :=
  apply_single_gate Gates.hadamard 0 (QuantumState_new 2).

(** Dispatch of one operation, in the words of the specification: a
    [SingleGate] goes to [apply_single_gate], a [ControlledGate] to
    [apply_controlled_gate]. *)
Definition apply_operation (op : Operation) (state : QuantumState) : QuantumState :=
  match type op with
  | SINGLE_GATE => apply_single_gate (gate op) (qubit op) state
  | CONTROLLED_GATE => apply_controlled_gate (gate op) (control op) (target op) state
  end.

(** An operation that names a qubit at or beyond the qubit count [n], every
    index staying below the width of [size_t]. *)
Definition index_out_of_range (n : size_t) (op : Operation) : Prop :=
  match type op with
  | SINGLE_GATE => n <= qubit op < SIZE_WIDTH
  | CONTROLLED_GATE =>
      control op < SIZE_WIDTH /\ target op < SIZE_WIDTH /\
      (n <= control op \/ n <= target op)
  end.

(** The vector after the call is not the vector before the call. *)
Definition corrupts_amplitudes (before after : QuantumState) : Prop :=
  amplitudes_ after <> amplitudes_ before.

(** [std::isfinite] *)
Definition isfinite (x : float) : bool :=
  match classify x with
  | NaN | PInf | NInf => false
  | _ => true
  end.

(** A zero of either sign. *)
Definition is_zero (x : float) : bool :=
  match classify x with
  | PZero | NZero => true
  | _ => false
  end.

(** A double that is finite and is not the negative zero. *)
Definition is_plain (x : float) : bool :=
  match classify x with
  | NaN | PInf | NInf | NZero => false
  | _ => true
  end.

(** Both components finite. *)
Definition finite_amplitude (a : Complex) : Prop :=
  isfinite (real a) = true /\ isfinite (imag a) = true.

(** Both components finite, neither the negative zero. *)
Definition plain_amplitude (a : Complex) : Prop :=
  is_plain (real a) = true /\ is_plain (imag a) = true.

(** Two doubles with the same bits, or two zeros. *)
Definition same_double (x y : float) : Prop :=
  x = y \/ (is_zero x = true /\ is_zero y = true).

Definition same_amplitude (a b : Complex) : Prop :=
  same_double (real a) (real b) /\ same_double (imag a) (imag b).

Definition all_finite (v : StateVector) : Prop := Forall finite_amplitude v.

Definition all_plain (v : StateVector) : Prop := Forall plain_amplitude v.

(** The index paired with [k] on qubit [q]. *)
Definition partner (q k : size_t) : size_t :=
  if N.testbit k q then N.clearbit k q else N.setbit k q.

(** The two shapes of a finite double in the binary64 specification. *)
Definition sf_zero (x : spec_float) : Prop := exists s, x = S754_zero s.

Definition sf_nonzero (x : spec_float) : Prop :=
  exists s m e, x = S754_finite s m e /\ bounded prec emax m e = true.

(** The circuit [x(0).z(0).x(0).z(0).x(0).z(0)] on one qubit: every gate
    entry is 0, 1 or -1, and the executed state is [(-0,0), (1,0)]. *)
Definition xz_circuit : QuantumCircuit.t :=
  QuantumCircuit.z 0 (QuantumCircuit.x 0
    (QuantumCircuit.z 0 (QuantumCircuit.x 0
      (QuantumCircuit.z 0 (QuantumCircuit.x 0 (QuantumCircuit.new 1)))))).

Definition xz_state : QuantumState := fst (QuantumCircuit.execute xz_circuit).

(** Number of amplitudes with both components zero. *)
Definition count_zero_amplitudes (v : StateVector) : nat :=
  length (List.filter (fun a => is_zero (real a) && is_zero (imag a)) v).

(** Sign bit of the real part of the amplitude at index 0, read through
    [1 / x < 0]. *)
Definition real0_negative (s : QuantumState) : bool :=
  match amplitudes_ s with
  | a :: _ => (1 / real a <? 0)%float
  | [] => false
  end.

(** [get_probability(i)] for every [i] below [size()]. *)
Definition probabilities (s : QuantumState) : list float :=
  map (fun i => fst (get_probability s (N.of_nat i))) (seq 0 (length (amplitudes_ s))).

(** An amplitude whose components are those of [b] negated, up to the
    sign of a zero. *)
Definition negated_amplitude (a b : Complex) : Prop :=
  same_double (real a) (- real b)%float /\ same_double (imag a) (- imag b)%float.

(** The index whose amplitude a CNOT moves to [k]. *)
Definition cnot_source (control target k : size_t) : size_t :=
  if N.testbit k control then partner target k else k.

(** An operation of a circuit on [n] qubits whose indices exist: the qubit
    of a single gate is below [n]; control and target of a controlled gate
    are below [n] and differ. *)
Definition operation_in_range (n : size_t) (op : Operation) : Prop :=
  match type op with
  | SINGLE_GATE => qubit op < n
  | CONTROLLED_GATE => control op < n /\ target op < n /\ control op <> target op
  end.

(** A controlled operation has a control different from its target. *)
Definition control_differs (op : Operation) : Prop :=
  type op = CONTROLLED_GATE -> control op <> target op.

(** A circuit on [n] qubits with [m] operations, each satisfying [Q]. *)
Definition generated (Q : Operation -> Prop) (n m : size_t) (c : QuantumCircuit.t)
    : Prop :=
  QuantumCircuit.num_qubits_ c = n /\ num_operations c = m /\
  Forall Q (QuantumCircuit.operations_ c).

(** The contract of [std::uniform_int_distribution<>(a, b)]: for [a <= b]
    every draw lies in [[a, b]]. *)
Definition draws_within_bounds {G : Type} (uniform_int : Z -> Z -> G -> Z * G) : Prop :=
  forall a b gen, (a <= b)%Z -> (a <= fst (uniform_int a b gen) <= b)%Z.

(** A stand-in engine for exercising the theorems: the state is a counter,
    the integer draw is [a + counter mod (b - a + 1)], the real draw is the
    lower bound. *)
Definition counter_int (a b : Z) (gen : nat) : Z * nat :=
  ((a + Z.of_nat gen mod (b - a + 1))%Z, S gen).

Definition counter_real (a b : float) (gen : nat) : float * nat := (a, gen).

(** [std::isnan] *)
Definition isnan (x : float) : bool :=
  match classify x with
  | NaN => true
  | _ => false
  end.

(** A double of the binary64 specification that is not below zero: a zero,
    a positive number, the positive infinity; NaN is let through. *)
Definition sf_not_negative (x : spec_float) : Prop :=
  match x with
  | S754_zero _ => True
  | S754_infinity s => s = false
  | S754_nan => True
  | S754_finite s _ _ => s = false
  end.

(** [1.0 / std::sqrt(2.0)], the entry of the Hadamard gate. *)
Definition inv_sqrt2 : float := (1 / PrimFloat.sqrt 2)%float.

(** Amplitude at index [k] of the state that holds [inv_sqrt2] at the
    indices [0] and [2^m - 1] and zero elsewhere. *)
Definition cat_amplitude (m k : size_t) : Complex :=
  if (k =? 0) || (k =? 2 ^ m - 1) then mkComplex inv_sqrt2 0 else mkComplex 0 0.














(** * Verification *)

(** ** Facts on bits and on 64-bit shifts *)

Lemma shl1_small k : k < SIZE_WIDTH -> shl1 k = 2 ^ k.
Proof.
  intros Hk. unfold shl1. rewrite N.shiftl_1_l.
  apply N.mod_small. apply N.pow_lt_mono_r; [lia | exact Hk].
Qed.

Lemma bit_at_b2n i k : bit_at i k = N.b2n (N.testbit i k).
Proof.
  unfold bit_at. change 1 with (N.ones 1). rewrite N.land_ones.
  rewrite N.shiftr_div_pow2, N.testbit_spec'. reflexivity.
Qed.

Lemma bit_at_eq0 i k : (bit_at i k =? 0) = negb (N.testbit i k).
Proof. rewrite bit_at_b2n. destruct (N.testbit i k); reflexivity. Qed.

Lemma bit_at_eq1 i k : (bit_at i k =? 1) = N.testbit i k.
Proof. rewrite bit_at_b2n. destruct (N.testbit i k); reflexivity. Qed.

Lemma lor_pow2_setbit i k : N.lor i (2 ^ k) = N.setbit i k.
Proof. symmetry. apply N.setbit_spec'. Qed.

Lemma testbit_above i k : i < 2 ^ k -> N.testbit i k = false.
Proof.
  intros Hi. apply N.testbit_false. rewrite N.div_small by exact Hi. reflexivity.
Qed.

Lemma setbit_lt_pow2 i k n : i < 2 ^ n -> k < n -> N.setbit i k < 2 ^ n.
Proof.
  intros Hi Hk. rewrite <- lor_pow2_setbit.
  assert (Hpos : 0 < N.lor i (2 ^ k)).
  { destruct (N.lor i (2 ^ k)) eqn:E; [|lia].
    apply N.lor_eq_0_iff in E. destruct E as [_ E].
    pose proof (N.pow_nonzero 2 k). lia. }
  apply N.log2_lt_pow2; [exact Hpos|].
  rewrite N.log2_lor, N.log2_pow2 by lia.
  apply N.max_lub_lt; [|exact Hk].
  destruct (N.eq_dec i 0) as [->|Hne]; [simpl; lia|].
  apply N.log2_lt_pow2; lia.
Qed.

Lemma setbit_ge_pow2 i k : 2 ^ k <= N.setbit i k.
Proof.
  destruct (N.le_gt_cases (2 ^ k) (N.setbit i k)) as [H|H]; [exact H|].
  apply testbit_above in H. rewrite N.setbit_eq in H. discriminate.
Qed.

Lemma clearbit_setbit i k : N.testbit i k = false -> N.clearbit (N.setbit i k) k = i.
Proof.
  intros Hb. apply N.bits_inj. intros m.
  rewrite N.clearbit_eqb, N.setbit_eqb.
  destruct (N.eqb_spec k m) as [->|Hne]; simpl.
  - rewrite Hb. reflexivity.
  - rewrite andb_true_r. reflexivity.
Qed.

Lemma setbit_clearbit i k : N.testbit i k = true -> N.setbit (N.clearbit i k) k = i.
Proof.
  intros Hb. apply N.bits_inj. intros m.
  rewrite N.setbit_eqb, N.clearbit_eqb.
  destruct (N.eqb_spec k m) as [->|Hne]; simpl.
  - rewrite Hb. reflexivity.
  - rewrite andb_true_r. reflexivity.
Qed.

Lemma clearbit_le i k : N.clearbit i k <= i.
Proof. rewrite N.clearbit_spec'. apply N.ldiff_le_l. Qed.

(** ** The loop *)

Lemma for_range_last count : forall i body acc,
  for_range (S count) i body acc =
  body (i + N.of_nat count) (for_range count i body acc).
Proof.
  induction count as [|c IH]; intros i body acc.
  - simpl. rewrite N.add_0_r. reflexivity.
  - change (for_range (S (S c)) i body acc)
      with (for_range (S c) (N.succ i) body (body i acc)).
    rewrite IH. simpl for_range at 2.
    f_equal. lia.
Qed.

Lemma for_range_skip count : forall i body acc,
  (forall k v, body k v = v) -> for_range count i body acc = acc.
Proof.
  induction count as [|c IH]; intros i body acc Hid; simpl; [reflexivity|].
  rewrite Hid. apply IH, Hid.
Qed.

Lemma single_body_pair gate qubit size old i v :
  single_body gate qubit size old i v =
  pair_body (single_sel qubit) gate qubit size old i v.
Proof. reflexivity. Qed.

Lemma controlled_body_pair gate control target size old i v :
  controlled_body gate control target size old i v =
  pair_body (controlled_sel control target) gate target size old i v.
Proof.
  unfold controlled_body, pair_body, controlled_sel.
  destruct (bit_at i control =? 1), (bit_at i target =? 0); reflexivity.
Qed.

Lemma paired_succ sel t size m i :
  paired sel t size (N.succ m) i =
  paired sel t size m i || ((i =? m) && sel i && (N.setbit i t <? size)).
Proof.
  unfold paired.
  destruct (N.ltb_spec i (N.succ m)), (N.ltb_spec i m), (N.eqb_spec i m);
    try lia; simpl; try reflexivity.
  all: destruct (sel i), (N.setbit i t <? size); reflexivity.
Qed.

Lemma after_pass_succ_other sel gate t size old m k :
  (forall i, sel i = true -> N.testbit i t = false) ->
  (sel m && (N.setbit m t <? size) = true -> k <> m /\ k <> N.setbit m t) ->
  after_pass sel gate t size old (N.succ m) k = after_pass sel gate t size old m k.
Proof.
  intros Hsel Hk. unfold after_pass.
  rewrite !paired_succ.
  destruct (N.testbit k t) eqn:Hb; cbv zeta.
  - destruct (N.eqb_spec (N.clearbit k t) m) as [E|E];
      [|simpl; rewrite orb_false_r; reflexivity].
    rewrite E. simpl.
    destruct (sel m && (N.setbit m t <? size)) eqn:Hw;
      [|rewrite orb_false_r; reflexivity].
    destruct (Hk eq_refl) as [_ Hne]. exfalso. apply Hne.
    rewrite <- E. symmetry. apply setbit_clearbit, Hb.
  - destruct (N.eqb_spec k m) as [E|E];
      [|simpl; rewrite orb_false_r; reflexivity].
    subst k. simpl.
    destruct (sel m && (N.setbit m t <? size)) eqn:Hw;
      [|rewrite orb_false_r; reflexivity].
    destruct (Hk eq_refl) as [Hne _]. congruence.
Qed.

Lemma vsize_lookup (v : StateVector) k :
  k < vsize v -> v !! N.to_nat k = Some (vget v k).
Proof.
  intros Hk. unfold vget.
  destruct (lookup_lt_is_Some_2 v (N.to_nat k)) as [a Ha].
  - unfold vsize in Hk. lia.
  - rewrite Ha. reflexivity.
Qed.

Lemma pass_invariant sel gate t old :
  t < SIZE_WIDTH ->
  (forall i, sel i = true -> N.testbit i t = false) ->
  forall m : nat, N.of_nat m <= vsize old ->
  let v := for_range m 0 (pair_body sel gate t (vsize old) old) old in
  length v = length old /\
  forall k, k < vsize old ->
    v !! N.to_nat k = Some (after_pass sel gate t (vsize old) old (N.of_nat m) k).
Proof.
  intros Ht Hsel. induction m as [|m IH]; intros Hm; cbv zeta.
  - cbn [for_range]. split; [reflexivity|]. intros k Hk.
    rewrite (vsize_lookup _ _ Hk). f_equal.
    unfold after_pass, paired.
    destruct (N.ltb_spec (N.clearbit k t) (N.of_nat 0)); [lia|].
    destruct (N.ltb_spec k (N.of_nat 0)); [lia|].
    destruct (N.testbit k t); reflexivity.
  - destruct IH as [IHlen IHget]; [lia|].
    rewrite for_range_last, N.add_0_l.
    set (v := for_range m 0 _ old) in *.
    rewrite Nat2N.inj_succ.
    set (i0 := N.of_nat m) in *.
    unfold pair_body. rewrite (shl1_small _ Ht), lor_pow2_setbit.
    destruct (sel i0) eqn:Hs; cbv zeta.
    2:{ split; [exact IHlen|]. intros k Hk. rewrite (IHget k Hk). f_equal.
        symmetry. apply after_pass_succ_other; [exact Hsel|].
        rewrite Hs. discriminate. }
    destruct (N.ltb_spec (N.setbit i0 t) (vsize old)) as [Hj|Hj].
    2:{ split; [exact IHlen|]. intros k Hk. rewrite (IHget k Hk). f_equal.
        symmetry. apply after_pass_succ_other; [exact Hsel|].
        rewrite Hs. simpl. intros Hw. apply N.ltb_lt in Hw. lia. }
    assert (Hb : N.testbit i0 t = false) by (apply Hsel, Hs).
    assert (Hij : N.setbit i0 t <> i0).
    { intros E. pose proof (N.setbit_eq i0 t) as H1. rewrite E in H1. congruence. }
    unfold write_pair, vset. split.
    { rewrite !length_insert. exact IHlen. }
    intros k Hk.
    destruct (N.eq_dec k (N.setbit i0 t)) as [->|Hkj].
    { rewrite list_lookup_insert_eq.
      2:{ rewrite length_insert, IHlen. unfold vsize in Hj. lia. }
      f_equal. unfold after_pass. rewrite N.setbit_eq. cbv zeta.
      rewrite (clearbit_setbit _ _ Hb). unfold paired.
      rewrite Hs. destruct (N.ltb_spec i0 (N.succ i0)); [|lia].
      destruct (N.ltb_spec (N.setbit i0 t) (vsize old)); [|lia]. reflexivity. }
    rewrite list_lookup_insert_ne by lia.
    destruct (N.eq_dec k i0) as [->|Hki].
    { rewrite list_lookup_insert_eq.
      2:{ rewrite IHlen. unfold vsize in Hk. lia. }
      f_equal. unfold after_pass. rewrite Hb. unfold paired.
      rewrite Hs. destruct (N.ltb_spec i0 (N.succ i0)); [|lia].
      destruct (N.ltb_spec (N.setbit i0 t) (vsize old)); [|lia]. reflexivity. }
    rewrite list_lookup_insert_ne by lia.
    rewrite (IHget k Hk). f_equal.
    symmetry. apply after_pass_succ_other; [exact Hsel|].
    intros _. split; assumption.
Qed.

Lemma for_range_idle count : forall i body acc,
  (forall k v, i <= k < i + N.of_nat count -> body k v = v) ->
  for_range count i body acc = acc.
Proof.
  induction count as [|c IH]; intros i body acc Hid; simpl; [reflexivity|].
  rewrite Hid by lia. apply IH. intros k v Hk. apply Hid. lia.
Qed.

Lemma for_range_length count : forall i body (acc : StateVector),
  (forall k v, length (body k v) = length v) ->
  length (for_range count i body acc) = length acc.
Proof.
  induction count as [|c IH]; intros i body acc Hlen; simpl; [reflexivity|].
  rewrite IH by exact Hlen. apply Hlen.
Qed.

Lemma pair_body_length sel gate t size old k (v : StateVector) :
  length (pair_body sel gate t size old k v) = length v.
Proof.
  unfold pair_body, write_pair, vset.
  destruct (sel k); [|reflexivity].
  destruct (_ <? size); [|reflexivity].
  rewrite !length_insert. reflexivity.
Qed.

(** ** States of [n] qubits

    The constructor establishes [n_qubit_state] and both gate applications
    keep it. *)

Lemma vsize_Zero size : vsize (Zero size) = size.
Proof. unfold vsize, Zero. rewrite length_replicate. lia. Qed.

Lemma QuantumState_new_n_qubit n : n < SIZE_WIDTH -> n_qubit_state n (QuantumState_new n).
Proof.
  intros Hn. unfold n_qubit_state, QuantumState_new. cbn [num_qubits_ amplitudes_].
  repeat split; [exact Hn|].
  unfold vsize, vset. rewrite length_insert.
  fold (vsize (Zero (shl1 n))). rewrite vsize_Zero. apply shl1_small, Hn.
Qed.

Lemma apply_single_gate_vsize gate qubit s :
  vsize (amplitudes_ (apply_single_gate gate qubit s)) = vsize (amplitudes_ s).
Proof.
  unfold apply_single_gate, vsize. cbn [amplitudes_]. f_equal.
  apply for_range_length. intros k v.
  rewrite single_body_pair. apply pair_body_length.
Qed.

Lemma apply_controlled_gate_vsize gate control target s :
  vsize (amplitudes_ (apply_controlled_gate gate control target s)) = vsize (amplitudes_ s).
Proof.
  unfold apply_controlled_gate, vsize. cbn [amplitudes_]. f_equal.
  apply for_range_length. intros k v.
  rewrite controlled_body_pair. apply pair_body_length.
Qed.

Lemma apply_single_gate_n_qubit n gate qubit s :
  n_qubit_state n s -> n_qubit_state n (apply_single_gate gate qubit s).
Proof.
  intros (Hq & Hn & Hsz). unfold n_qubit_state.
  rewrite apply_single_gate_vsize. auto.
Qed.

Lemma apply_controlled_gate_n_qubit n gate control target s :
  n_qubit_state n s -> n_qubit_state n (apply_controlled_gate gate control target s).
Proof.
  intros (Hq & Hn & Hsz). unfold n_qubit_state.
  rewrite apply_controlled_gate_vsize. auto.
Qed.

(** ** Result of a whole pass *)

Lemma for_range_ext count : forall i body body' (acc : StateVector),
  (forall k v, body k v = body' k v) ->
  for_range count i body acc = for_range count i body' acc.
Proof.
  induction count as [|c IH]; intros i body body' acc Hext; simpl; [reflexivity|].
  rewrite Hext. apply IH, Hext.
Qed.

Lemma single_sel_bit qubit i : single_sel qubit i = negb (N.testbit i qubit).
Proof. apply bit_at_eq0. Qed.

Lemma controlled_sel_bit control target i :
  controlled_sel control target i = N.testbit i control && negb (N.testbit i target).
Proof. unfold controlled_sel. rewrite bit_at_eq1, bit_at_eq0. reflexivity. Qed.

Lemma apply_single_gate_lookup gate qubit s k :
  qubit < SIZE_WIDTH -> k < vsize (amplitudes_ s) ->
  amplitudes_ (apply_single_gate gate qubit s) !! N.to_nat k =
  Some (after_pass (single_sel qubit) gate qubit (vsize (amplitudes_ s))
          (amplitudes_ s) (vsize (amplitudes_ s)) k).
Proof.
  intros Hq Hk. unfold apply_single_gate. cbn [amplitudes_].
  rewrite (for_range_ext _ _ _ (pair_body (single_sel qubit) gate qubit
             (vsize (amplitudes_ s)) (amplitudes_ s)))
    by (intros; apply single_body_pair).
  destruct (pass_invariant (single_sel qubit) gate qubit (amplitudes_ s) Hq)
    with (m := N.to_nat (vsize (amplitudes_ s))) as [_ Hget].
  - intros i Hi. rewrite single_sel_bit in Hi. destruct (N.testbit i qubit); [discriminate|reflexivity].
  - lia.
  - rewrite (Hget k Hk). rewrite N2Nat.id. reflexivity.
Qed.

Lemma apply_controlled_gate_lookup gate control target s k :
  target < SIZE_WIDTH -> k < vsize (amplitudes_ s) ->
  amplitudes_ (apply_controlled_gate gate control target s) !! N.to_nat k =
  Some (after_pass (controlled_sel control target) gate target (vsize (amplitudes_ s))
          (amplitudes_ s) (vsize (amplitudes_ s)) k).
Proof.
  intros Hq Hk. unfold apply_controlled_gate. cbn [amplitudes_].
  rewrite (for_range_ext _ _ _ (pair_body (controlled_sel control target) gate target
             (vsize (amplitudes_ s)) (amplitudes_ s)))
    by (intros; apply controlled_body_pair).
  destruct (pass_invariant (controlled_sel control target) gate target (amplitudes_ s) Hq)
    with (m := N.to_nat (vsize (amplitudes_ s))) as [_ Hget].
  - intros i Hi. rewrite controlled_sel_bit in Hi.
    destruct (N.testbit i target); [|reflexivity].
    rewrite andb_false_r in Hi. discriminate.
  - lia.
  - rewrite (Hget k Hk). rewrite N2Nat.id. reflexivity.
Qed.

(** ** Single-qubit gate *)

(** C1. In a state of [n] qubits, for a qubit [q < n] and a basis index
    [i < 2^n] whose bit [q] is 0, with [j] the index [i] with bit [q] set,
    [apply_single_gate] leaves at [i] the value
    [g00 * amp(i) + g01 * amp(j)] and at [j] the value
    [g10 * amp(i) + g11 * amp(j)], where [amp(i)] and [amp(j)] are the
    entries of the vector before the call. *)
Theorem apply_single_gate_pairs (n : size_t) (s : QuantumState) (g : Gate) (q i : size_t) :
  n_qubit_state n s -> q < n -> i < 2 ^ n -> N.testbit i q = false ->
  let j := N.setbit i q in
  let old := amplitudes_ s in
  let new := amplitudes_ (apply_single_gate g q s) in
  exists amp_i amp_j,
    old !! N.to_nat i = Some amp_i /\
    old !! N.to_nat j = Some amp_j /\
    new !! N.to_nat i = Some (cadd (cmul (g00 g) amp_i) (cmul (g01 g) amp_j)) /\
    new !! N.to_nat j = Some (cadd (cmul (g10 g) amp_i) (cmul (g11 g) amp_j)).
Proof.
  intros (Hnq & Hn & Hsz) Hq Hi Hb j old new.
  assert (Hj : j < 2 ^ n) by (apply setbit_lt_pow2; assumption).
  assert (Hq64 : q < SIZE_WIDTH) by lia.
  exists (vget old i), (vget old j).
  split; [apply vsize_lookup; fold old in Hsz; lia|].
  split; [apply vsize_lookup; fold old in Hsz; lia|].
  subst new. split.
  - rewrite apply_single_gate_lookup by (try assumption; lia).
    f_equal. unfold after_pass. rewrite Hb. unfold paired.
    rewrite single_sel_bit, Hb. fold j. rewrite Hsz.
    destruct (N.ltb_spec i (2 ^ n)); [|lia].
    destruct (N.ltb_spec j (2 ^ n)); [|lia]. reflexivity.
  - rewrite apply_single_gate_lookup by (try assumption; lia).
    f_equal. unfold after_pass. subst j. rewrite N.setbit_eq. cbv zeta.
    rewrite (clearbit_setbit _ _ Hb). unfold paired.
    rewrite single_sel_bit, Hb, Hsz.
    destruct (N.ltb_spec i (2 ^ n)); [|lia].
    destruct (N.ltb_spec (N.setbit i q) (2 ^ n)); [|lia]. reflexivity.
Qed.

Lemma apply_single_gate_pairs_witness :
  n_qubit_state 2 plus_zero /\ 1 < 2 /\ 1 < 2 ^ 2 /\ N.testbit 1 1 = false /\
  exists amp_i amp_j,
    amplitudes_ plus_zero !! N.to_nat 1 = Some amp_i /\
    amplitudes_ plus_zero !! N.to_nat 3 = Some amp_j /\
    amplitudes_ (apply_single_gate Gates.pauli_y 1 plus_zero) !! N.to_nat 1 =
      Some (cadd (cmul (g00 Gates.pauli_y) amp_i) (cmul (g01 Gates.pauli_y) amp_j)) /\
    amplitudes_ (apply_single_gate Gates.pauli_y 1 plus_zero) !! N.to_nat 3 =
      Some (cadd (cmul (g10 Gates.pauli_y) amp_i) (cmul (g11 Gates.pauli_y) amp_j)).
Proof.
  assert (Hs : n_qubit_state 2 plus_zero) by (repeat split; vm_compute; reflexivity).
  assert (Hq : 1 < 2) by reflexivity.
  assert (Hi : 1 < 2 ^ 2) by reflexivity.
  assert (Hb : N.testbit 1 1 = false) by reflexivity.
  repeat (split; [assumption|]).
  exact (apply_single_gate_pairs 2 plus_zero Gates.pauli_y 1 1 Hs Hq Hi Hb).
Defined.

(** ** Controlled gate *)

(** C4. In a state of [n] qubits, for [control < n], [target < n] and
    [control <> target], [apply_controlled_gate] leaves the amplitude at
    every index whose control bit is 0 as it was, and on every index [i]
    whose control bit is 1 and target bit is 0 it performs the update of
    [apply_single_gate] on the pair [(i, j)], [j] being [i] with the
    target bit set. *)
Theorem apply_controlled_gate_subspace (n : size_t) (s : QuantumState) (g : Gate)
    (control target : size_t) :
  n_qubit_state n s -> control < n -> target < n -> control <> target ->
  let old := amplitudes_ s in
  let new := amplitudes_ (apply_controlled_gate g control target s) in
  (forall i, i < 2 ^ n -> N.testbit i control = false ->
     new !! N.to_nat i = old !! N.to_nat i) /\
  (forall i, i < 2 ^ n -> N.testbit i control = true -> N.testbit i target = false ->
     let j := N.setbit i target in
     N.testbit j control = true /\
     exists amp_i amp_j,
       old !! N.to_nat i = Some amp_i /\
       old !! N.to_nat j = Some amp_j /\
       new !! N.to_nat i = Some (cadd (cmul (g00 g) amp_i) (cmul (g01 g) amp_j)) /\
       new !! N.to_nat j = Some (cadd (cmul (g10 g) amp_i) (cmul (g11 g) amp_j))).
Proof.
  intros (Hnq & Hn & Hsz) Hc Ht Hct old new.
  assert (Ht64 : target < SIZE_WIDTH) by lia.
  fold old in Hsz. split.
  - intros i Hi Hb. subst new.
    rewrite apply_controlled_gate_lookup by (try assumption; fold old; lia).
    fold old. rewrite (vsize_lookup old i) by lia. f_equal.
    unfold after_pass, paired. rewrite !controlled_sel_bit.
    rewrite N.clearbit_neq by (intros E; apply Hct; symmetry; exact E).
    rewrite Hb. simpl. rewrite !andb_false_r. simpl.
    destruct (N.testbit i target); reflexivity.
  - intros i Hi Hb Hbt j.
    assert (Hj : j < 2 ^ n) by (apply setbit_lt_pow2; assumption).
    assert (Hjc : N.testbit j control = true).
    { subst j. rewrite N.setbit_neq by (intros E; apply Hct; symmetry; exact E).
      exact Hb. }
    split; [exact Hjc|].
    exists (vget old i), (vget old j).
    split; [apply vsize_lookup; lia|].
    split; [apply vsize_lookup; lia|].
    subst new. split.
    + rewrite apply_controlled_gate_lookup by (try assumption; fold old; lia).
      fold old. f_equal. unfold after_pass. rewrite Hbt. unfold paired.
      rewrite controlled_sel_bit, Hb, Hbt. fold j. rewrite Hsz.
      destruct (N.ltb_spec i (2 ^ n)); [|lia].
      destruct (N.ltb_spec j (2 ^ n)); [|lia]. reflexivity.
    + rewrite apply_controlled_gate_lookup by (try assumption; fold old; lia).
      fold old. f_equal. unfold after_pass. subst j. rewrite N.setbit_eq. cbv zeta.
      rewrite (clearbit_setbit _ _ Hbt). unfold paired.
      rewrite controlled_sel_bit, Hb, Hbt, Hsz.
      destruct (N.ltb_spec i (2 ^ n)); [|lia].
      destruct (N.ltb_spec (N.setbit i target) (2 ^ n)); [|lia]. reflexivity.
Qed.

Lemma apply_controlled_gate_subspace_witness :
  n_qubit_state 2 plus_zero /\ 0 < 2 /\ 1 < 2 /\ 0 <> 1 /\
  (forall i, i < 2 ^ 2 -> N.testbit i 0 = false ->
     amplitudes_ (apply_controlled_gate Gates.pauli_x 0 1 plus_zero) !! N.to_nat i =
     amplitudes_ plus_zero !! N.to_nat i) /\
  (forall i, i < 2 ^ 2 -> N.testbit i 0 = true -> N.testbit i 1 = false ->
     N.testbit (N.setbit i 1) 0 = true /\
     exists amp_i amp_j,
       amplitudes_ plus_zero !! N.to_nat i = Some amp_i /\
       amplitudes_ plus_zero !! N.to_nat (N.setbit i 1) = Some amp_j /\
       amplitudes_ (apply_controlled_gate Gates.pauli_x 0 1 plus_zero) !! N.to_nat i =
         Some (cadd (cmul (g00 Gates.pauli_x) amp_i) (cmul (g01 Gates.pauli_x) amp_j)) /\
       amplitudes_ (apply_controlled_gate Gates.pauli_x 0 1 plus_zero)
         !! N.to_nat (N.setbit i 1) =
         Some (cadd (cmul (g10 Gates.pauli_x) amp_i) (cmul (g11 Gates.pauli_x) amp_j))).
Proof.
  assert (Hs : n_qubit_state 2 plus_zero) by (repeat split; vm_compute; reflexivity).
  assert (Hc : 0 < 2) by reflexivity.
  assert (Ht : 1 < 2) by reflexivity.
  assert (Hct : 0 <> 1) by discriminate.
  repeat (split; [assumption|]).
  exact (apply_controlled_gate_subspace 2 plus_zero Gates.pauli_x 0 1 Hs Hc Ht Hct).
Defined.

(** ** Probability query *)

(** C5. In a state of [n] qubits, [get_probability] returns
    [real * real + imag * imag] of the amplitude at the index when the index
    is below [2^n], and [0] for every index from [2^n] on; it always
    returns a value, and the state it hands back is the state it received. *)
Theorem get_probability_spec (n : size_t) (s : QuantumState) :
  n_qubit_state n s ->
  (forall index, index < 2 ^ n ->
     exists amp, amplitudes_ s !! N.to_nat index = Some amp /\
       get_probability s index = ((real amp * real amp + imag amp * imag amp)%float, s)) /\
  (forall index, 2 ^ n <= index -> get_probability s index = (0%float, s)).
Proof.
  intros (Hnq & Hn & Hsz). split.
  - intros index Hi. exists (vget (amplitudes_ s) index).
    split; [apply vsize_lookup; lia|].
    unfold get_probability. rewrite Hsz.
    destruct (N.ltb_spec index (2 ^ n)); [reflexivity|lia].
  - intros index Hi. unfold get_probability. rewrite Hsz.
    destruct (N.ltb_spec index (2 ^ n)); [lia|reflexivity].
Qed.

Lemma get_probability_spec_witness :
  n_qubit_state 2 plus_zero /\
  (forall index, index < 2 ^ 2 ->
     exists amp, amplitudes_ plus_zero !! N.to_nat index = Some amp /\
       get_probability plus_zero index =
         ((real amp * real amp + imag amp * imag amp)%float, plus_zero)) /\
  (forall index, 2 ^ 2 <= index -> get_probability plus_zero index = (0%float, plus_zero)).
Proof.
  assert (Hs : n_qubit_state 2 plus_zero) by (repeat split; vm_compute; reflexivity).
  split; [exact Hs|].
  exact (get_probability_spec 2 plus_zero Hs).
Defined.

(** ** Constructor *)

(** C6. For a qubit count [n] whose [2^n] is a [size_t] ([n < 64]),
    [QuantumState(n)] holds a vector of exactly [2^n] amplitudes, [(1,0)] at
    index 0 and [(0,0)] at every other index. *)
Theorem QuantumState_new_basis (n : size_t) :
  n < SIZE_WIDTH ->
  let s := QuantumState_new n in
  num_qubits_ s = n /\
  vsize (amplitudes_ s) = 2 ^ n /\
  amplitudes_ s !! N.to_nat 0 = Some (mkComplex 1 0) /\
  (forall i, 0 < i < 2 ^ n -> amplitudes_ s !! N.to_nat i = Some (mkComplex 0 0)).
Proof.
  intros Hn s. destruct (QuantumState_new_n_qubit n Hn) as (Hq & _ & Hsz).
  fold s in Hq, Hsz.
  split; [exact Hq|]. split; [exact Hsz|]. split.
  - unfold s, QuantumState_new, vset. cbn [amplitudes_].
    apply list_lookup_insert_eq.
    rewrite (shl1_small _ Hn).
    pose proof (vsize_Zero (2 ^ n)) as Hz. unfold vsize in Hz.
    pose proof (N.pow_nonzero 2 n). lia.
  - intros i Hi. unfold s, QuantumState_new, vset. cbn [amplitudes_].
    rewrite list_lookup_insert_ne by lia.
    unfold Zero. apply lookup_replicate_2.
    rewrite (shl1_small _ Hn). lia.
Qed.

Lemma QuantumState_new_basis_witness :
  3 < SIZE_WIDTH /\
  num_qubits_ (QuantumState_new 3) = 3 /\
  vsize (amplitudes_ (QuantumState_new 3)) = 2 ^ 3 /\
  amplitudes_ (QuantumState_new 3) !! N.to_nat 0 = Some (mkComplex 1 0) /\
  (forall i, 0 < i < 2 ^ 3 ->
     amplitudes_ (QuantumState_new 3) !! N.to_nat i = Some (mkComplex 0 0)).
Proof.
  assert (Hn : 3 < SIZE_WIDTH) by reflexivity.
  split; [exact Hn|].
  exact (QuantumState_new_basis 3 Hn).
Defined.

(** ** Circuit execution *)

Lemma run_operations_fold ops : forall state,
  QuantumCircuit.run_operations ops state =
  fold_left (fun st op => apply_operation op st) ops state.
Proof.
  induction ops as [|op rest IH]; intros state; [reflexivity|].
  cbn [QuantumCircuit.run_operations fold_left]. rewrite IH. reflexivity.
Qed.

Lemma run_operations_app ops ops' state :
  QuantumCircuit.run_operations (ops ++ ops') state =
  QuantumCircuit.run_operations ops' (QuantumCircuit.run_operations ops state).
Proof. rewrite !run_operations_fold. apply fold_left_app. Qed.

Lemma execute_push_back op c :
  fst (QuantumCircuit.execute (QuantumCircuit.push_back op c)) =
  apply_operation op (fst (QuantumCircuit.execute c)).
Proof.
  unfold QuantumCircuit.execute, QuantumCircuit.push_back.
  cbn [fst QuantumCircuit.num_qubits_ QuantumCircuit.operations_].
  rewrite run_operations_app. reflexivity.
Qed.

Lemma execute_const c : snd (QuantumCircuit.execute c) = c.
Proof. reflexivity. Qed.

(** C2. [execute] builds a fresh state for the declared qubit count, replays
    the stored operations from the first appended to the last, each through
    [apply_single_gate] or [apply_controlled_gate] according to its type,
    returns that state, and hands the circuit back with the same qubit count
    and the same operations. *)
Theorem execute_replays_in_order (c : QuantumCircuit.t) :
  snd (QuantumCircuit.execute c) = c /\
  fst (QuantumCircuit.execute c) =
    fold_left (fun st op => apply_operation op st) (QuantumCircuit.operations_ c)
      (QuantumState_new (QuantumCircuit.num_qubits_ c)) /\
  fst (QuantumCircuit.execute (QuantumCircuit.new (QuantumCircuit.num_qubits_ c))) =
    QuantumState_new (QuantumCircuit.num_qubits_ c) /\
  (forall op,
     fst (QuantumCircuit.execute (QuantumCircuit.push_back op c)) =
     apply_operation op (fst (QuantumCircuit.execute c))).
Proof.
  split; [apply execute_const|]. split; [|split].
  - unfold QuantumCircuit.execute. cbn [fst]. apply run_operations_fold.
  - reflexivity.
  - intros op. apply execute_push_back.
Qed.

(** C3. Executing a circuit, then executing the circuit object as the first
    call left it, yields the same amplitude vector. *)
Theorem execute_twice_same_amplitudes (c : QuantumCircuit.t) :
  amplitudes_ (fst (QuantumCircuit.execute (snd (QuantumCircuit.execute c)))) =
  amplitudes_ (fst (QuantumCircuit.execute c)).
Proof.
  rewrite execute_const. reflexivity.
Qed.

(** ** Control equal to target *)

Lemma controlled_sel_same q i : controlled_sel q q i = false.
Proof. rewrite controlled_sel_bit. destruct (N.testbit i q); reflexivity. Qed.

Lemma state_eta s : mkState (amplitudes_ s) (num_qubits_ s) = s.
Proof. destruct s; reflexivity. Qed.

Lemma state_ext s s' :
  amplitudes_ s = amplitudes_ s' -> num_qubits_ s = num_qubits_ s' -> s = s'.
Proof. destruct s, s'. cbn. intros -> ->. reflexivity. Qed.

(** C10. With the control equal to the target, [apply_controlled_gate]
    returns the state it was given, for every state, gate and index; hence
    [cnot(q, q)] appended to a circuit does not change the executed state. *)
Theorem apply_controlled_gate_same_qubit (g : Gate) (q : size_t) :
  (forall s, apply_controlled_gate g q q s = s) /\
  (forall c, fst (QuantumCircuit.execute (QuantumCircuit.cnot q q c)) =
             fst (QuantumCircuit.execute c)).
Proof.
  assert (Hid : forall g' s, apply_controlled_gate g' q q s = s).
  { intros g' s. unfold apply_controlled_gate.
    rewrite for_range_skip; [apply state_eta|].
    intros k v. rewrite controlled_body_pair. unfold pair_body.
    rewrite controlled_sel_same. reflexivity. }
  split; [apply Hid|].
  intros c. unfold QuantumCircuit.cnot. rewrite execute_push_back.
  unfold apply_operation. cbn [type gate control target]. apply Hid.
Qed.

(** ** Indices at or beyond the qubit count *)

Lemma single_gate_out_of_range n s g q :
  n_qubit_state n s -> n <= q < SIZE_WIDTH -> apply_single_gate g q s = s.
Proof.
  intros (Hnq & Hn & Hsz) [Hlo Hhi]. unfold apply_single_gate.
  rewrite for_range_idle; [apply state_eta|].
  intros k v Hk. rewrite single_body_pair. unfold pair_body.
  destruct (single_sel q k); [|reflexivity]. cbv zeta.
  rewrite (shl1_small _ Hhi), lor_pow2_setbit.
  destruct (N.ltb_spec (N.setbit k q) (vsize (amplitudes_ s))) as [Hj|Hj];
    [|reflexivity].
  exfalso. pose proof (setbit_ge_pow2 k q) as Hge.
  assert (2 ^ n <= 2 ^ q) by (apply N.pow_le_mono_r; lia). lia.
Qed.

Lemma controlled_gate_out_of_range n s g c t :
  n_qubit_state n s -> c < SIZE_WIDTH -> t < SIZE_WIDTH -> n <= c \/ n <= t ->
  apply_controlled_gate g c t s = s.
Proof.
  intros (Hnq & Hn & Hsz) Hc Ht Hout. unfold apply_controlled_gate.
  rewrite for_range_idle; [apply state_eta|].
  intros k v Hk. rewrite controlled_body_pair. unfold pair_body.
  destruct (controlled_sel c t k) eqn:Hs; [|reflexivity]. cbv zeta.
  rewrite (shl1_small _ Ht), lor_pow2_setbit.
  destruct (N.ltb_spec (N.setbit k t) (vsize (amplitudes_ s))) as [Hj|Hj];
    [|reflexivity].
  exfalso. rewrite controlled_sel_bit in Hs. apply andb_true_iff in Hs.
  destruct Hs as [Hkc _]. destruct Hout as [Hout|Hout].
  - assert (2 ^ n <= 2 ^ c) by (apply N.pow_le_mono_r; lia).
    rewrite testbit_above in Hkc by lia. discriminate.
  - pose proof (setbit_ge_pow2 k t) as Hge.
    assert (2 ^ n <= 2 ^ t) by (apply N.pow_le_mono_r; lia). lia.
Qed.

Lemma run_operations_n_qubit n ops : forall s,
  n_qubit_state n s -> n_qubit_state n (QuantumCircuit.run_operations ops s).
Proof.
  induction ops as [|op rest IH]; intros s Hs; [exact Hs|].
  cbn [QuantumCircuit.run_operations]. apply IH.
  destruct (type op).
  - apply apply_single_gate_n_qubit, Hs.
  - apply apply_controlled_gate_n_qubit, Hs.
Qed.

Lemma execute_n_qubit c :
  QuantumCircuit.num_qubits_ c < SIZE_WIDTH ->
  n_qubit_state (QuantumCircuit.num_qubits_ c) (fst (QuantumCircuit.execute c)).
Proof.
  intros Hn. unfold QuantumCircuit.execute. cbn [fst].
  apply run_operations_n_qubit, QuantumState_new_n_qubit, Hn.
Qed.

(** C9. No gate application checks its indices and none reports an error:
    an operation appended with any index is applied by [execute] as it is.
    In a state of [n] qubits an index [q] with [n <= q < 64] (qubit,
    control or target) makes the gate application return the state
    unchanged: the requested gate is silently not applied. At index 64
    the shift is undefined in C++ and the vector can be corrupted without
    any error: a Hadamard gate on index 64 of a two-qubit state changes the
    amplitude vector, both when the shifted value wraps to 64 bits (every
    amplitude becomes zero) and when the count is taken modulo 64 (the
    gate lands on qubit 0). *)
Theorem out_of_range_index_unchecked (n : size_t) (s : QuantumState) (g : Gate) :
  n_qubit_state n s ->
  (forall circuit op,
     fst (QuantumCircuit.execute (QuantumCircuit.push_back op circuit)) =
     apply_operation op (fst (QuantumCircuit.execute circuit))) /\
  (forall q, n <= q < SIZE_WIDTH -> apply_single_gate g q s = s) /\
  (forall c t, c < SIZE_WIDTH -> t < SIZE_WIDTH -> n <= c \/ n <= t ->
     apply_controlled_gate g c t s = s) /\
  (forall circuit op,
     QuantumCircuit.num_qubits_ circuit = n -> index_out_of_range n op ->
     fst (QuantumCircuit.execute (QuantumCircuit.push_back op circuit)) =
     fst (QuantumCircuit.execute circuit)) /\
  corrupts_amplitudes plus_zero (apply_single_gate Gates.hadamard 64 plus_zero) /\
  corrupts_amplitudes plus_zero (apply_single_gate Gates.hadamard (64 mod 64) plus_zero).
Proof.
  intros Hs. split; [|split; [|split; [|split; [|split]]]].
  - intros circuit op. apply execute_push_back.
  - intros q Hq. exact (single_gate_out_of_range n s g q Hs Hq).
  - intros c t Hc Ht Hout. exact (controlled_gate_out_of_range n s g c t Hs Hc Ht Hout).
  - intros circuit op Hn Hop. rewrite execute_push_back.
    assert (Hex : n_qubit_state n (fst (QuantumCircuit.execute circuit))).
    { rewrite <- Hn. apply execute_n_qubit. rewrite Hn. apply Hs. }
    unfold apply_operation. unfold index_out_of_range in Hop.
    destruct (type op).
    + apply (single_gate_out_of_range n); assumption.
    + destruct Hop as (Hc & Ht & Hout).
      apply (controlled_gate_out_of_range n); assumption.
  - intros H. apply (f_equal count_zero_amplitudes) in H. vm_compute in H. discriminate H.
  - intros H. apply (f_equal count_zero_amplitudes) in H. vm_compute in H. discriminate H.
Qed.

Lemma out_of_range_index_unchecked_witness :
  n_qubit_state 2 plus_zero /\
  (forall circuit op,
     fst (QuantumCircuit.execute (QuantumCircuit.push_back op circuit)) =
     apply_operation op (fst (QuantumCircuit.execute circuit))) /\
  (forall q, 2 <= q < SIZE_WIDTH -> apply_single_gate Gates.hadamard q plus_zero = plus_zero) /\
  (forall c t, c < SIZE_WIDTH -> t < SIZE_WIDTH -> 2 <= c \/ 2 <= t ->
     apply_controlled_gate Gates.hadamard c t plus_zero = plus_zero) /\
  (forall circuit op,
     QuantumCircuit.num_qubits_ circuit = 2 -> index_out_of_range 2 op ->
     fst (QuantumCircuit.execute (QuantumCircuit.push_back op circuit)) =
     fst (QuantumCircuit.execute circuit)) /\
  corrupts_amplitudes plus_zero (apply_single_gate Gates.hadamard 64 plus_zero) /\
  corrupts_amplitudes plus_zero (apply_single_gate Gates.hadamard (64 mod 64) plus_zero).
Proof.
  assert (Hs : n_qubit_state 2 plus_zero) by (repeat split; vm_compute; reflexivity).
  split; [exact Hs|].
  exact (out_of_range_index_unchecked 2 plus_zero Gates.hadamard Hs).
Defined.

(** ** Pauli-X applied twice *)

Section Binary64.
Local Open Scope Z_scope.

Lemma isfinite_sf x : isfinite x = true -> sf_zero (Prim2SF x) \/ sf_nonzero (Prim2SF x).
Proof.
  unfold isfinite. rewrite classify_spec.
  pose proof (Prim2SF_valid x) as Hv.
  destruct (Prim2SF x) as [s|[|]| |s m e]; cbn; try discriminate.
  - intros _. left. exists s. reflexivity.
  - intros _. right. exists s, m, e. split; [reflexivity|exact Hv].
Qed.

Lemma is_zero_sf x : is_zero x = true <-> sf_zero (Prim2SF x).
Proof.
  unfold is_zero. rewrite classify_spec. split.
  - unfold SF64classify, SFclassify.
    destruct (Prim2SF x) as [s|[|]| |[|] m e]; try discriminate.
    + intros _. exists s. reflexivity.
    + destruct (Z.pos (digits2_pos m) =? prec); discriminate.
    + destruct (Z.pos (digits2_pos m) =? prec); discriminate.
  - intros [s ->]. destruct s; reflexivity.
Qed.

Lemma is_plain_sf x :
  is_plain x = true -> Prim2SF x = S754_zero false \/ sf_nonzero (Prim2SF x).
Proof.
  unfold is_plain. rewrite classify_spec.
  pose proof (Prim2SF_valid x) as Hv.
  destruct (Prim2SF x) as [[|]|[|]| |s m e]; cbn; try discriminate.
  - intros _. left. reflexivity.
  - intros _. right. exists s, m, e. split; [reflexivity|exact Hv].
Qed.

Lemma is_plain_isfinite x : is_plain x = true -> isfinite x = true.
Proof. unfold is_plain, isfinite. destruct (classify x); congruence. Qed.

Lemma is_zero_isfinite x : is_zero x = true -> isfinite x = true.
Proof. unfold is_zero, isfinite. destruct (classify x); congruence. Qed.

(** The product of the double 1 with a finite double is exact. *)
Lemma SF64mul_one s m e :
  bounded prec emax m e = true ->
  SF64mul (S754_finite false 4503599627370496 (-52)) (S754_finite s m e) =
  S754_finite s m e.
Proof.
  intros Hb. unfold bounded, canonical_mantissa in Hb.
  apply andb_prop in Hb. destruct Hb as [Hc He].
  apply Z.eqb_eq in Hc. apply Z.leb_le in He.
  unfold SF64mul, SFmul. cbn [xorb].
  unfold binary_round_aux, shr_fexp.
  cbv [Pos.mul]. cbn [Zdigits2 digits2_pos shr_record_of_loc].
  match goal with |- context [fexp ?p ?q ?a] => replace (fexp p q a) with e end.
  2:{ rewrite <- Hc. f_equal. rewrite !Pos2Z.inj_succ. lia. }
  replace (e - (-52 + e)) with 52 by lia.
  cbn [shr SpecFloat.iter_pos shr_1 orb].
  cbn [shr_m loc_of_shr_record round_nearest_even shr_record_of_loc Zdigits2].
  replace (-52 + e + 52) with e by lia.
  rewrite Hc, Z.sub_diag. cbn [shr shr_m].
  change (emax - prec) with 971 in *.
  destruct (Z.leb_spec e 971); [reflexivity|lia].
Qed.

Lemma mul_one_finite x : isfinite x = true -> (1 * x)%float = x.
Proof.
  intros Hx. apply Prim2SF_inj. rewrite mul_spec.
  change (Prim2SF 1) with (S754_finite false 4503599627370496 (-52)).
  destruct (isfinite_sf x Hx) as [[s ->]|(s & m & e & -> & Hb)]; [reflexivity|].
  apply SF64mul_one, Hb.
Qed.

Lemma mul_zero_finite x : isfinite x = true -> is_zero (0 * x)%float = true.
Proof.
  intros Hx. apply is_zero_sf. rewrite mul_spec.
  change (Prim2SF 0) with (S754_zero false).
  destruct (isfinite_sf x Hx) as [[s ->]|(s & m & e & -> & Hb)]; eexists; reflexivity.
Qed.

Lemma sub_zeros x y : is_zero x = true -> is_zero y = true -> is_zero (x - y)%float = true.
Proof.
  rewrite !is_zero_sf. intros [s Hx] [s' Hy]. rewrite sub_spec, Hx, Hy.
  destruct s, s'; eexists; reflexivity.
Qed.

Lemma add_zeros x y : is_zero x = true -> is_zero y = true -> is_zero (x + y)%float = true.
Proof.
  rewrite !is_zero_sf. intros [s Hx] [s' Hy]. rewrite add_spec, Hx, Hy.
  destruct s, s'; eexists; reflexivity.
Qed.

(** Adding or subtracting a zero: exact on a plain double, and on a finite
    double exact up to the sign of a zero. *)
Lemma sub_zero_plain x z : is_plain x = true -> is_zero z = true -> (x - z)%float = x.
Proof.
  rewrite is_zero_sf. intros Hx [s Hz]. apply Prim2SF_inj. rewrite sub_spec, Hz.
  destruct (is_plain_sf x Hx) as [->|(s' & m & e & -> & _)];
    destruct s; reflexivity.
Qed.

Lemma add_zero_plain x z : is_plain x = true -> is_zero z = true -> (x + z)%float = x.
Proof.
  rewrite is_zero_sf. intros Hx [s Hz]. apply Prim2SF_inj. rewrite add_spec, Hz.
  destruct (is_plain_sf x Hx) as [->|(s' & m & e & -> & _)];
    destruct s; reflexivity.
Qed.

Lemma zero_add_plain x z : is_plain x = true -> is_zero z = true -> (z + x)%float = x.
Proof.
  rewrite is_zero_sf. intros Hx [s Hz]. apply Prim2SF_inj. rewrite add_spec, Hz.
  destruct (is_plain_sf x Hx) as [->|(s' & m & e & -> & _)];
    destruct s; reflexivity.
Qed.

Lemma sub_zero_finite x z :
  isfinite x = true -> is_zero z = true -> same_double (x - z)%float x.
Proof.
  intros Hx Hz. destruct (isfinite_sf x Hx) as [Hx0|(s' & m & e & Hxe & _)].
  - right. apply is_zero_sf in Hx0. split; [apply sub_zeros; assumption|exact Hx0].
  - left. apply is_zero_sf in Hz. destruct Hz as [s Hz].
    apply Prim2SF_inj. rewrite sub_spec, Hz, Hxe. reflexivity.
Qed.

Lemma add_zero_finite x z :
  isfinite x = true -> is_zero z = true -> same_double (x + z)%float x.
Proof.
  intros Hx Hz. destruct (isfinite_sf x Hx) as [Hx0|(s' & m & e & Hxe & _)].
  - right. apply is_zero_sf in Hx0. split; [apply add_zeros; assumption|exact Hx0].
  - left. apply is_zero_sf in Hz. destruct Hz as [s Hz].
    apply Prim2SF_inj. rewrite add_spec, Hz, Hxe. reflexivity.
Qed.

Lemma zero_add_same w x z :
  isfinite x = true -> is_zero z = true -> same_double w x -> same_double (z + w)%float x.
Proof.
  intros Hx Hz [->|[Hw Hx0]].
  - destruct (isfinite_sf x Hx) as [Hx0|(s' & m & e & Hxe & _)].
    + right. apply is_zero_sf in Hx0. split; [apply add_zeros; assumption|exact Hx0].
    + left. apply is_zero_sf in Hz. destruct Hz as [s Hz].
      apply Prim2SF_inj. rewrite add_spec, Hz, Hxe. reflexivity.
  - right. split; [apply add_zeros; assumption|exact Hx0].
Qed.

Lemma add_zero_same w x z :
  isfinite x = true -> is_zero z = true -> same_double w x -> same_double (w + z)%float x.
Proof.
  intros Hx Hz [->|[Hw Hx0]].
  - apply add_zero_finite; assumption.
  - right. split; [apply add_zeros; assumption|exact Hx0].
Qed.
End Binary64.

Lemma same_double_trans x y z : same_double x y -> same_double y z -> same_double x z.
Proof.
  intros [->|[Hx Hy]] [->|[Hy' Hz]]; try (left; reflexivity); right; auto.
Qed.

Lemma same_double_isfinite x y : isfinite y = true -> same_double x y -> isfinite x = true.
Proof. intros Hy [->|[Hx _]]; [exact Hy|apply is_zero_isfinite, Hx]. Qed.

Lemma same_amplitude_trans a b c :
  same_amplitude a b -> same_amplitude b c -> same_amplitude a c.
Proof.
  intros [H1 H2] [H3 H4]. split.
  - exact (same_double_trans _ _ _ H1 H3).
  - exact (same_double_trans _ _ _ H2 H4).
Qed.

Lemma same_amplitude_finite a b :
  finite_amplitude b -> same_amplitude a b -> finite_amplitude a.
Proof.
  intros [H1 H2] [H3 H4]. split.
  - exact (same_double_isfinite _ _ H1 H3).
  - exact (same_double_isfinite _ _ H2 H4).
Qed.

(** The two rows of the Pauli-X product, on finite amplitudes and on plain
    amplitudes. *)
Lemma pauli_x_row0_finite a b :
  finite_amplitude a -> finite_amplitude b ->
  same_amplitude (cadd (cmul (g00 Gates.pauli_x) a) (cmul (g01 Gates.pauli_x) b)) b.
Proof.
  intros [Har Hai] [Hbr Hbi].
  destruct a as [ar ai], b as [br bi]. cbn [real imag] in *.
  unfold cadd, cmul, Gates.pauli_x, of_real, same_amplitude. cbn [real imag g00 g01].
  rewrite !mul_one_finite by assumption. split.
  - apply zero_add_same; [assumption| |].
    + apply sub_zeros; apply mul_zero_finite; assumption.
    + apply sub_zero_finite; [assumption|apply mul_zero_finite; assumption].
  - apply zero_add_same; [assumption| |].
    + apply add_zeros; apply mul_zero_finite; assumption.
    + apply add_zero_finite; [assumption|apply mul_zero_finite; assumption].
Qed.

Lemma pauli_x_row1_finite a b :
  finite_amplitude a -> finite_amplitude b ->
  same_amplitude (cadd (cmul (g10 Gates.pauli_x) a) (cmul (g11 Gates.pauli_x) b)) a.
Proof.
  intros [Har Hai] [Hbr Hbi].
  destruct a as [ar ai], b as [br bi]. cbn [real imag] in *.
  unfold cadd, cmul, Gates.pauli_x, of_real, same_amplitude. cbn [real imag g10 g11].
  rewrite !mul_one_finite by assumption. split.
  - apply add_zero_same; [assumption| |].
    + apply sub_zeros; apply mul_zero_finite; assumption.
    + apply sub_zero_finite; [assumption|apply mul_zero_finite; assumption].
  - apply add_zero_same; [assumption| |].
    + apply add_zeros; apply mul_zero_finite; assumption.
    + apply add_zero_finite; [assumption|apply mul_zero_finite; assumption].
Qed.

Lemma pauli_x_row0_plain a b :
  plain_amplitude a -> plain_amplitude b ->
  cadd (cmul (g00 Gates.pauli_x) a) (cmul (g01 Gates.pauli_x) b) = b.
Proof.
  intros [Har Hai] [Hbr Hbi].
  pose proof (is_plain_isfinite _ Har). pose proof (is_plain_isfinite _ Hai).
  pose proof (is_plain_isfinite _ Hbr). pose proof (is_plain_isfinite _ Hbi).
  destruct a as [ar ai], b as [br bi]. cbn [real imag] in *.
  unfold cadd, cmul, Gates.pauli_x, of_real. cbn [real imag g00 g01].
  rewrite !mul_one_finite by assumption.
  rewrite (sub_zero_plain br) by (try assumption; apply mul_zero_finite; assumption).
  rewrite (add_zero_plain bi) by (try assumption; apply mul_zero_finite; assumption).
  rewrite (zero_add_plain br)
    by (try assumption; apply sub_zeros; apply mul_zero_finite; assumption).
  rewrite (zero_add_plain bi)
    by (try assumption; apply add_zeros; apply mul_zero_finite; assumption).
  reflexivity.
Qed.

Lemma pauli_x_row1_plain a b :
  plain_amplitude a -> plain_amplitude b ->
  cadd (cmul (g10 Gates.pauli_x) a) (cmul (g11 Gates.pauli_x) b) = a.
Proof.
  intros [Har Hai] [Hbr Hbi].
  pose proof (is_plain_isfinite _ Har). pose proof (is_plain_isfinite _ Hai).
  pose proof (is_plain_isfinite _ Hbr). pose proof (is_plain_isfinite _ Hbi).
  destruct a as [ar ai], b as [br bi]. cbn [real imag] in *.
  unfold cadd, cmul, Gates.pauli_x, of_real. cbn [real imag g10 g11].
  rewrite !mul_one_finite by assumption.
  rewrite (sub_zero_plain ar) by (try assumption; apply mul_zero_finite; assumption).
  rewrite (add_zero_plain ai) by (try assumption; apply mul_zero_finite; assumption).
  rewrite (add_zero_plain ar)
    by (try assumption; apply sub_zeros; apply mul_zero_finite; assumption).
  rewrite (add_zero_plain ai)
    by (try assumption; apply add_zeros; apply mul_zero_finite; assumption).
  reflexivity.
Qed.

Lemma partner_involutive q k : partner q (partner q k) = k.
Proof.
  unfold partner. destruct (N.testbit k q) eqn:Hb.
  - rewrite N.clearbit_eq. apply setbit_clearbit, Hb.
  - rewrite N.setbit_eq. apply clearbit_setbit, Hb.
Qed.

Lemma partner_lt q k n : k < 2 ^ n -> q < n -> partner q k < 2 ^ n.
Proof.
  intros Hk Hq. unfold partner. destruct (N.testbit k q).
  - pose proof (clearbit_le k q). lia.
  - apply setbit_lt_pow2; assumption.
Qed.

(** A gate whose first row returns the second amplitude of a pair and whose
    second row returns the first, both up to a relation [R] on amplitudes of
    a class [P], exchanges the amplitudes of every pair; applied twice it
    returns every amplitude, up to [R]. *)
Section Exchange.
Variable gate : Gate.
Variable P : Complex -> Prop.
Variable R : Complex -> Complex -> Prop.
Hypothesis R_trans : forall a b c, R a b -> R b c -> R a c.
Hypothesis P_closed : forall a b, P b -> R a b -> P a.
Hypothesis row0_second :
  forall a b, P a -> P b -> R (cadd (cmul (g00 gate) a) (cmul (g01 gate) b)) b.
Hypothesis row1_first :
  forall a b, P a -> P b -> R (cadd (cmul (g10 gate) a) (cmul (g11 gate) b)) a.

Variables (n q : size_t).
Hypothesis q_in_range : q < n.

Lemma Forall_vget (v : StateVector) k : Forall P v -> k < vsize v -> P (vget v k).
Proof.
  intros Hv Hk. rewrite Forall_lookup in Hv.
  apply (Hv (N.to_nat k)). apply vsize_lookup, Hk.
Qed.

Lemma exchange_once s k :
  n_qubit_state n s -> Forall P (amplitudes_ s) -> k < 2 ^ n ->
  exists a, amplitudes_ (apply_single_gate gate q s) !! N.to_nat k = Some a /\
            R a (vget (amplitudes_ s) (partner q k)).
Proof.
  intros (Hnq & Hn & Hsz) Hp Hk.
  pose proof (partner_lt q k n Hk q_in_range) as Hpk.
  rewrite apply_single_gate_lookup by lia.
  eexists. split; [reflexivity|].
  unfold after_pass, partner in *. unfold paired. rewrite !single_sel_bit, Hsz.
  destruct (N.testbit k q) eqn:Hb; cbv zeta.
  - rewrite N.clearbit_eq, (setbit_clearbit _ _ Hb). cbn [negb andb].
    destruct (N.ltb_spec (N.clearbit k q) (2 ^ n)); [|lia].
    destruct (N.ltb_spec k (2 ^ n)); [|lia]. cbn [andb].
    unfold row1. apply row1_first; apply Forall_vget; (assumption || lia).
  - cbn [negb andb].
    destruct (N.ltb_spec k (2 ^ n)); [|lia].
    destruct (N.ltb_spec (N.setbit k q) (2 ^ n)); [|lia]. cbn [andb].
    unfold row0. apply row0_second; apply Forall_vget; (assumption || lia).
Qed.

Lemma exchange_keeps s :
  n_qubit_state n s -> Forall P (amplitudes_ s) ->
  Forall P (amplitudes_ (apply_single_gate gate q s)).
Proof.
  intros Hs Hp. apply Forall_lookup. intros i a Hi.
  pose proof Hs as (Hnq & Hn & Hsz).
  assert (Hlt : N.of_nat i < 2 ^ n).
  { apply lookup_lt_Some in Hi.
    pose proof (apply_single_gate_vsize gate q s) as Hv.
    unfold vsize in *. lia. }
  rewrite <- (Nat2N.id i) in Hi.
  destruct (exchange_once s _ Hs Hp Hlt) as (a' & Ha' & HR).
  assert (a' = a) by congruence. subst a'.
  pose proof (partner_lt q _ n Hlt q_in_range) as Hplt.
  assert (Hin : partner q (N.of_nat i) < vsize (amplitudes_ s)) by lia.
  exact (P_closed _ _ (Forall_vget _ _ Hp Hin) HR).
Qed.

Lemma exchange_twice s :
  n_qubit_state n s -> Forall P (amplitudes_ s) ->
  Forall2 R (amplitudes_ (apply_single_gate gate q (apply_single_gate gate q s)))
            (amplitudes_ s).
Proof.
  intros Hs Hp.
  set (s1 := apply_single_gate gate q s).
  assert (Hs1 : n_qubit_state n s1) by (apply apply_single_gate_n_qubit, Hs).
  assert (Hp1 : Forall P (amplitudes_ s1)) by (apply exchange_keeps; assumption).
  pose proof Hs as (Hnq & Hn & Hsz).
  pose proof (apply_single_gate_vsize gate q s1) as Hv2.
  pose proof (apply_single_gate_vsize gate q s) as Hv1. fold s1 in Hv1.
  apply Forall2_same_length_lookup_2; [unfold vsize in *; lia|].
  intros i a2 a Hi2 Hi.
  assert (Hlt : N.of_nat i < 2 ^ n).
  { apply lookup_lt_Some in Hi. unfold vsize in *. lia. }
  pose proof (partner_lt q _ n Hlt q_in_range) as Hplt.
  rewrite <- (Nat2N.id i) in Hi2, Hi.
  destruct (exchange_once s1 _ Hs1 Hp1 Hlt) as (b2 & Hb2 & HR2).
  destruct (exchange_once s _ Hs Hp Hplt) as (b1 & Hb1 & HR1).
  rewrite partner_involutive in HR1. fold s1 in Hb1.
  assert (b2 = a2) by congruence. subst b2.
  unfold vget in HR2 at 1. rewrite Hb1 in HR2. cbn [default] in HR2.
  unfold vget in HR1 at 1. rewrite Hi in HR1. cbn [default] in HR1.
  exact (R_trans _ _ _ HR2 HR1).
Qed.
End Exchange.

(** C8, as the code has it. In a state of [n] qubits whose amplitude
    components are all finite, applying Pauli-X twice to a qubit [q < n]
    gives back every amplitude with the same bits, except that a component
    that is a zero may come back as the zero of the other sign; when
    moreover no component is the negative zero, the state comes back bit
    for bit. *)
Theorem pauli_x_twice (n : size_t) (s : QuantumState) (q : size_t) :
  n_qubit_state n s -> q < n -> all_finite (amplitudes_ s) ->
  let s2 := apply_single_gate Gates.pauli_x q (apply_single_gate Gates.pauli_x q s) in
  Forall2 same_amplitude (amplitudes_ s2) (amplitudes_ s) /\
  (all_plain (amplitudes_ s) -> s2 = s).
Proof.
  intros Hs Hq Hf s2. split.
  - apply (exchange_twice Gates.pauli_x finite_amplitude same_amplitude
             same_amplitude_trans same_amplitude_finite
             pauli_x_row0_finite pauli_x_row1_finite n q Hq s Hs Hf).
  - intros Hp. apply state_ext; [|reflexivity].
    apply list_eq_Forall2.
    assert (Htrans : forall a b c : Complex, a = b -> b = c -> a = c)
      by (intros a b c -> ->; reflexivity).
    assert (Hclosed : forall a b, plain_amplitude b -> a = b -> plain_amplitude a)
      by (intros a b Hb ->; exact Hb).
    apply (exchange_twice Gates.pauli_x plain_amplitude eq Htrans Hclosed
             pauli_x_row0_plain pauli_x_row1_plain n q Hq s Hs Hp).
Qed.

Lemma pauli_x_twice_witness :
  n_qubit_state 2 plus_zero /\ 1 < 2 /\ all_finite (amplitudes_ plus_zero) /\
  Forall2 same_amplitude
    (amplitudes_ (apply_single_gate Gates.pauli_x 1
                    (apply_single_gate Gates.pauli_x 1 plus_zero)))
    (amplitudes_ plus_zero) /\
  (all_plain (amplitudes_ plus_zero) ->
   apply_single_gate Gates.pauli_x 1 (apply_single_gate Gates.pauli_x 1 plus_zero) =
   plus_zero).
Proof.
  assert (Hs : n_qubit_state 2 plus_zero) by (repeat split; vm_compute; reflexivity).
  assert (Hq : 1 < 2) by reflexivity.
  assert (Hf : all_finite (amplitudes_ plus_zero)).
  { unfold all_finite.
    let v := eval vm_compute in (amplitudes_ plus_zero) in
    change (amplitudes_ plus_zero) with v.
    repeat (constructor; [split; reflexivity|]). constructor. }
  repeat (split; [assumption|]).
  exact (pauli_x_twice 2 plus_zero 1 Hs Hq Hf).
Defined.

Example xz_state_amplitudes :
  amplitudes_ xz_state = [mkComplex (-0) 0; mkComplex 1 0].
Proof. vm_compute. reflexivity. Qed.

Example xz_state_pauli_x_twice :
  amplitudes_ (apply_single_gate Gates.pauli_x 0
                 (apply_single_gate Gates.pauli_x 0 xz_state))
  = [mkComplex 0 0; mkComplex 1 0].
Proof. vm_compute. reflexivity. Qed.

(** C8, as stated, fails: the state executed from [xz_circuit] holds a
    negative zero, which two applications of Pauli-X return as a positive
    zero. *)
Lemma pauli_x_twice_not_bit_exact :
  n_qubit_state 1 xz_state /\
  apply_single_gate Gates.pauli_x 0 (apply_single_gate Gates.pauli_x 0 xz_state)
  <> xz_state.
Proof.
  split; [repeat split; vm_compute; reflexivity|].
  intros H. apply (f_equal real0_negative) in H.
  vm_compute in H. discriminate H.
Qed.

(** ** Scenarios of the specification, evaluated *)

Example single_pauli_x_flip :
  probabilities (fst (QuantumCircuit.execute (QuantumCircuit.x 0 (QuantumCircuit.new 1))))
  = [0; 1]%float.
Proof. vm_compute. reflexivity. Qed.

Example bell_state_support :
  map (fun p => (0 <? p)%float)
    (probabilities (fst (QuantumCircuit.execute
       (QuantumCircuit.cnot 0 1 (QuantumCircuit.h 0 (QuantumCircuit.new 2))))))
  = [true; false; false; true].
Proof. vm_compute. reflexivity. Qed.

Example ghz3_support :
  map (fun p => (0 <? p)%float)
    (probabilities (fst (QuantumCircuit.execute
       (QuantumCircuit.cnot 0 2 (QuantumCircuit.cnot 0 1
          (QuantumCircuit.h 0 (QuantumCircuit.new 3)))))))
  = [true; false; false; false; false; false; false; true].
Proof. vm_compute. reflexivity. Qed.

(** Both probabilities within [2^-30] (below [1e-9]) of [0.5]. *)
Example single_hadamard :
  map (fun p => (abs (p - 0.5) <? 0x1p-30)%float)
    (probabilities (fst (QuantumCircuit.execute
       (QuantumCircuit.h 0 (QuantumCircuit.new 1)))))
  = [true; true].
Proof. vm_compute. reflexivity. Qed.

(** Rounding is visible after two Hadamard gates: [1/sqrt(2)] is rounded
    down, and the probability of index 0 comes back two units in the last
    place below 1. *)
Example hadamard_twice :
  probabilities (fst (QuantumCircuit.execute
     (QuantumCircuit.h 0 (QuantumCircuit.h 0 (QuantumCircuit.new 1)))))
  = [0x1.ffffffffffffcp-1; 0]%float.
Proof. vm_compute. reflexivity. Qed.

(** * Further properties of the simulator *)

(** ** Shape of the state *)

(** X1. No gate application, whatever the gate and the indices, changes
    the number of amplitudes or the qubit count of the state. *)
Theorem gate_application_keeps_shape (g : Gate) (a b : size_t) (s : QuantumState) :
  QuantumState_size (apply_single_gate g a s) = QuantumState_size s /\
  QuantumState_num_qubits (apply_single_gate g a s) = QuantumState_num_qubits s /\
  QuantumState_size (apply_controlled_gate g a b s) = QuantumState_size s /\
  QuantumState_num_qubits (apply_controlled_gate g a b s) = QuantumState_num_qubits s.
Proof.
  unfold QuantumState_size, QuantumState_num_qubits.
  rewrite apply_single_gate_vsize, apply_controlled_gate_vsize.
  repeat split; reflexivity.
Qed.

(** X2. For a circuit that declares [n < 64] qubits, whatever its
    operations, the executed state reports [num_qubits() = n] and
    [size() = 2^n]. *)
Theorem execute_state_shape (c : QuantumCircuit.t) :
  QuantumCircuit.num_qubits_ c < SIZE_WIDTH ->
  QuantumState_num_qubits (fst (QuantumCircuit.execute c)) = QuantumCircuit.num_qubits_ c /\
  QuantumState_size (fst (QuantumCircuit.execute c)) = 2 ^ QuantumCircuit.num_qubits_ c.
Proof.
  intros Hn. destruct (execute_n_qubit c Hn) as (Hq & _ & Hsz).
  split; [exact Hq|exact Hsz].
Qed.

Lemma execute_state_shape_witness :
  QuantumCircuit.num_qubits_ xz_circuit < SIZE_WIDTH /\
  QuantumState_num_qubits (fst (QuantumCircuit.execute xz_circuit)) =
    QuantumCircuit.num_qubits_ xz_circuit /\
  QuantumState_size (fst (QuantumCircuit.execute xz_circuit)) =
    2 ^ QuantumCircuit.num_qubits_ xz_circuit.
Proof.
  assert (Hn : QuantumCircuit.num_qubits_ xz_circuit < SIZE_WIDTH) by reflexivity.
  split; [exact Hn|]. exact (execute_state_shape xz_circuit Hn).
Defined.

(** ** Controlled gate against single gate *)

Lemma controlled_lookup_split g control target s k :
  target < SIZE_WIDTH -> control <> target -> k < vsize (amplitudes_ s) ->
  amplitudes_ (apply_controlled_gate g control target s) !! N.to_nat k =
  if N.testbit k control
  then amplitudes_ (apply_single_gate g target s) !! N.to_nat k
  else amplitudes_ s !! N.to_nat k.
Proof.
  intros Ht Hct Hk.
  rewrite apply_controlled_gate_lookup by assumption.
  destruct (N.testbit k control) eqn:Hc.
  - rewrite apply_single_gate_lookup by assumption. f_equal.
    unfold after_pass, paired. rewrite !controlled_sel_bit, !single_sel_bit.
    rewrite N.clearbit_neq by (intros E; apply Hct; symmetry; exact E).
    rewrite Hc. reflexivity.
  - rewrite (vsize_lookup _ _ Hk). f_equal.
    unfold after_pass, paired. rewrite !controlled_sel_bit.
    rewrite N.clearbit_neq by (intros E; apply Hct; symmetry; exact E).
    rewrite Hc. cbn [andb]. rewrite !andb_false_r. cbn [andb].
    destruct (N.testbit k target); reflexivity.
Qed.

(** X3. With [control <> target], both below 64, the controlled gate gives
    every index whose control bit is 1 the amplitude that the single gate on
    the target gives it, and every index whose control bit is 0 the
    amplitude it had. *)
Theorem controlled_gate_is_single_gate_under_control (g : Gate) (control target : size_t)
    (s : QuantumState) (k : size_t) :
  control < SIZE_WIDTH -> target < SIZE_WIDTH -> control <> target ->
  k < QuantumState_size s ->
  amplitudes_ (apply_controlled_gate g control target s) !! N.to_nat k =
  if N.testbit k control
  then amplitudes_ (apply_single_gate g target s) !! N.to_nat k
  else amplitudes_ s !! N.to_nat k.
Proof.
  unfold QuantumState_size. intros _. apply controlled_lookup_split.
Qed.

Lemma controlled_gate_is_single_gate_under_control_witness :
  0 < SIZE_WIDTH /\ 1 < SIZE_WIDTH /\ 0 <> 1 /\ 3 < QuantumState_size plus_zero /\
  amplitudes_ (apply_controlled_gate Gates.hadamard 0 1 plus_zero) !! N.to_nat 3 =
  if N.testbit 3 0
  then amplitudes_ (apply_single_gate Gates.hadamard 1 plus_zero) !! N.to_nat 3
  else amplitudes_ plus_zero !! N.to_nat 3.
Proof.
  assert (Hc : 0 < SIZE_WIDTH) by reflexivity.
  assert (Ht : 1 < SIZE_WIDTH) by reflexivity.
  assert (Hct : 0 <> 1) by discriminate.
  assert (Hk : 3 < QuantumState_size plus_zero) by (vm_compute; reflexivity).
  repeat (split; [assumption|]).
  exact (controlled_gate_is_single_gate_under_control Gates.hadamard 0 1 plus_zero 3
           Hc Ht Hct Hk).
Defined.

(** ** Probabilities under the Pauli gates and CNOT *)

Section Binary64Squares.
Local Open Scope Z_scope.

Lemma SF64mul_minus_one s m e :
  bounded prec emax m e = true ->
  SF64mul (S754_finite true 4503599627370496 (-52)) (S754_finite s m e) =
  S754_finite (negb s) m e.
Proof.
  intros Hb. unfold bounded, canonical_mantissa in Hb.
  apply andb_prop in Hb. destruct Hb as [Hc He].
  apply Z.eqb_eq in Hc. apply Z.leb_le in He.
  unfold SF64mul, SFmul. cbn [xorb].
  unfold binary_round_aux, shr_fexp.
  cbv [Pos.mul]. cbn [Zdigits2 digits2_pos shr_record_of_loc].
  match goal with |- context [fexp ?p ?q ?a] => replace (fexp p q a) with e end.
  2:{ rewrite <- Hc. f_equal. rewrite !Pos2Z.inj_succ. lia. }
  replace (e - (-52 + e)) with 52 by lia.
  cbn [shr SpecFloat.iter_pos shr_1 orb].
  cbn [shr_m loc_of_shr_record round_nearest_even shr_record_of_loc Zdigits2].
  replace (-52 + e + 52) with e by lia.
  rewrite Hc, Z.sub_diag. cbn [shr shr_m].
  change (emax - prec) with 971 in *.
  destruct (Z.leb_spec e 971); [reflexivity|lia].
Qed.

Lemma mul_minus_one_finite x : isfinite x = true -> (-1 * x)%float = (- x)%float.
Proof.
  intros Hx. apply Prim2SF_inj. rewrite mul_spec, opp_spec.
  change (Prim2SF (-1)) with (S754_finite true 4503599627370496 (-52)).
  destruct (isfinite_sf x Hx) as [[s ->]|(s & m & e & -> & Hb)]; [reflexivity|].
  apply SF64mul_minus_one, Hb.
Qed.

Lemma opp_isfinite x : isfinite x = true -> isfinite (- x)%float = true.
Proof.
  unfold isfinite. rewrite !classify_spec, opp_spec.
  unfold SF64classify, SFclassify.
  destruct (Prim2SF x) as [[|]|[|]| |[|] m e]; cbn [SFopp negb]; try discriminate;
    try reflexivity; destruct (Z.pos (digits2_pos m) =? prec); reflexivity.
Qed.

Lemma square_opp x : (- x * - x)%float = (x * x)%float.
Proof.
  apply Prim2SF_inj. rewrite !mul_spec, opp_spec.
  destruct (Prim2SF x) as [[|]|[|]| |[|] m e]; reflexivity.
Qed.

Lemma square_same_double x y : same_double x y -> (x * x)%float = (y * y)%float.
Proof.
  intros [->|[Hx Hy]]; [reflexivity|].
  apply is_zero_sf in Hx. apply is_zero_sf in Hy.
  destruct Hx as [s Hx], Hy as [s' Hy].
  apply Prim2SF_inj. rewrite !mul_spec, Hx, Hy.
  destruct s, s'; reflexivity.
Qed.
End Binary64Squares.

Lemma norm_same_amplitude a b : same_amplitude a b -> norm a = norm b.
Proof.
  intros [Hr Hi]. unfold norm.
  rewrite (square_same_double _ _ Hr), (square_same_double _ _ Hi). reflexivity.
Qed.

Lemma norm_negated_amplitude a b : negated_amplitude a b -> norm a = norm b.
Proof.
  intros [Hr Hi]. unfold norm.
  rewrite (square_same_double _ _ Hr), (square_same_double _ _ Hi).
  rewrite !square_opp. reflexivity.
Qed.

Lemma get_probability_lookup s k a :
  amplitudes_ s !! N.to_nat k = Some a -> fst (get_probability s k) = norm a.
Proof.
  intros Hk. unfold get_probability.
  assert (Hlt : k < vsize (amplitudes_ s)).
  { apply lookup_lt_Some in Hk. unfold vsize. lia. }
  destruct (N.ltb_spec k (vsize (amplitudes_ s))); [|lia].
  unfold vget. rewrite Hk. reflexivity.
Qed.

Lemma pauli_x_exchange_finite n s q k :
  n_qubit_state n s -> q < n -> all_finite (amplitudes_ s) -> k < 2 ^ n ->
  exists a, amplitudes_ (apply_single_gate Gates.pauli_x q s) !! N.to_nat k = Some a /\
            same_amplitude a (vget (amplitudes_ s) (partner q k)).
Proof.
  intros Hs Hq Hf Hk.
  exact (exchange_once Gates.pauli_x finite_amplitude same_amplitude
           pauli_x_row0_finite pauli_x_row1_finite n q Hq s k Hs Hf Hk).
Qed.

(** X4. On a state of [n] qubits with finite amplitudes, Pauli-X on a qubit
    [q < n] exchanges the probabilities of every pair exactly: the
    probability read at [k] afterwards is the probability that was at the
    partner of [k]. *)
Theorem pauli_x_exchanges_probabilities (n : size_t) (s : QuantumState) (q k : size_t) :
  n_qubit_state n s -> q < n -> all_finite (amplitudes_ s) -> k < 2 ^ n ->
  fst (get_probability (apply_single_gate Gates.pauli_x q s) k) =
  fst (get_probability s (partner q k)).
Proof.
  intros Hs Hq Hf Hk.
  destruct (pauli_x_exchange_finite n s q k Hs Hq Hf Hk) as (a & Ha & HR).
  rewrite (get_probability_lookup _ _ _ Ha).
  pose proof Hs as (_ & _ & Hsz).
  pose proof (partner_lt q k n Hk Hq) as Hp.
  rewrite (get_probability_lookup s (partner q k) (vget (amplitudes_ s) (partner q k)))
    by (apply vsize_lookup; lia).
  apply norm_same_amplitude, HR.
Qed.

Ltac evaluate_amplitudes :=
  unfold all_finite, all_plain;
  match goal with
  | |- Forall _ ?v => let v' := eval vm_compute in v in change v with v'
  end;
  repeat (constructor; [split; reflexivity|]); constructor.

Lemma pauli_x_exchanges_probabilities_witness :
  n_qubit_state 2 plus_zero /\ 1 < 2 /\ all_finite (amplitudes_ plus_zero) /\ 1 < 2 ^ 2 /\
  fst (get_probability (apply_single_gate Gates.pauli_x 1 plus_zero) 1) =
  fst (get_probability plus_zero (partner 1 1)).
Proof.
  assert (Hs : n_qubit_state 2 plus_zero) by (repeat split; vm_compute; reflexivity).
  assert (Hq : 1 < 2) by reflexivity.
  assert (Hf : all_finite (amplitudes_ plus_zero)) by evaluate_amplitudes.
  assert (Hk : 1 < 2 ^ 2) by reflexivity.
  repeat (split; [assumption|]).
  exact (pauli_x_exchanges_probabilities 2 plus_zero 1 1 Hs Hq Hf Hk).
Defined.

Lemma pauli_z_row1_finite a b :
  finite_amplitude a -> finite_amplitude b ->
  negated_amplitude (cadd (cmul (g10 Gates.pauli_z) a) (cmul (g11 Gates.pauli_z) b)) b.
Proof.
  intros [Har Hai] [Hbr Hbi].
  destruct a as [ar ai], b as [br bi]. cbn [real imag] in *.
  unfold cadd, cmul, Gates.pauli_z, of_real, negated_amplitude. cbn [real imag g10 g11].
  rewrite !mul_minus_one_finite by assumption.
  pose proof (opp_isfinite _ Hbr). pose proof (opp_isfinite _ Hbi). split.
  - apply zero_add_same; [assumption| |].
    + apply sub_zeros; apply mul_zero_finite; assumption.
    + apply sub_zero_finite; [assumption|apply mul_zero_finite; assumption].
  - apply zero_add_same; [assumption| |].
    + apply add_zeros; apply mul_zero_finite; assumption.
    + apply add_zero_finite; [assumption|apply mul_zero_finite; assumption].
Qed.

Lemma pauli_z_lookup n s q k :
  n_qubit_state n s -> q < n -> all_finite (amplitudes_ s) -> k < 2 ^ n ->
  exists a, amplitudes_ (apply_single_gate Gates.pauli_z q s) !! N.to_nat k = Some a /\
    if N.testbit k q then negated_amplitude a (vget (amplitudes_ s) k)
    else same_amplitude a (vget (amplitudes_ s) k).
Proof.
  intros (Hnq & Hn & Hsz) Hq Hf Hk.
  rewrite apply_single_gate_lookup by lia.
  eexists. split; [reflexivity|].
  unfold after_pass, paired. rewrite !single_sel_bit, Hsz.
  destruct (N.testbit k q) eqn:Hb; cbv zeta.
  - rewrite N.clearbit_eq, (setbit_clearbit _ _ Hb). cbn [negb andb].
    pose proof (clearbit_le k q).
    destruct (N.ltb_spec (N.clearbit k q) (2 ^ n)); [|lia].
    destruct (N.ltb_spec k (2 ^ n)); [|lia]. cbn [andb].
    unfold row1. apply pauli_z_row1_finite;
      apply (Forall_vget finite_amplitude); (assumption || lia).
  - cbn [negb andb].
    pose proof (setbit_lt_pow2 k q n Hk Hq).
    destruct (N.ltb_spec k (2 ^ n)); [|lia].
    destruct (N.ltb_spec (N.setbit k q) (2 ^ n)); [|lia]. cbn [andb].
    unfold row0. apply (pauli_x_row1_finite (vget (amplitudes_ s) k));
      apply (Forall_vget finite_amplitude); (assumption || lia).
Qed.

(** X5. On a state of [n] qubits with finite amplitudes, Pauli-Z on a qubit
    [q < n] leaves every probability exactly as it was; the amplitude at an
    index whose bit [q] is 1 is negated, the others are kept, both up to the
    sign of a zero. *)
Theorem pauli_z_keeps_probabilities (n : size_t) (s : QuantumState) (q k : size_t) :
  n_qubit_state n s -> q < n -> all_finite (amplitudes_ s) -> k < 2 ^ n ->
  fst (get_probability (apply_single_gate Gates.pauli_z q s) k) = fst (get_probability s k) /\
  exists a, amplitudes_ (apply_single_gate Gates.pauli_z q s) !! N.to_nat k = Some a /\
    if N.testbit k q then negated_amplitude a (vget (amplitudes_ s) k)
    else same_amplitude a (vget (amplitudes_ s) k).
Proof.
  intros Hs Hq Hf Hk.
  destruct (pauli_z_lookup n s q k Hs Hq Hf Hk) as (a & Ha & HR).
  split; [|exists a; split; assumption].
  rewrite (get_probability_lookup _ _ _ Ha).
  pose proof Hs as (_ & _ & Hsz).
  rewrite (get_probability_lookup s k (vget (amplitudes_ s) k))
    by (apply vsize_lookup; lia).
  destruct (N.testbit k q).
  - apply norm_negated_amplitude, HR.
  - apply norm_same_amplitude, HR.
Qed.

Lemma pauli_z_keeps_probabilities_witness :
  n_qubit_state 2 plus_zero /\ 0 < 2 /\ all_finite (amplitudes_ plus_zero) /\ 1 < 2 ^ 2 /\
  fst (get_probability (apply_single_gate Gates.pauli_z 0 plus_zero) 1) =
    fst (get_probability plus_zero 1) /\
  exists a, amplitudes_ (apply_single_gate Gates.pauli_z 0 plus_zero) !! N.to_nat 1 = Some a /\
    if N.testbit 1 0 then negated_amplitude a (vget (amplitudes_ plus_zero) 1)
    else same_amplitude a (vget (amplitudes_ plus_zero) 1).
Proof.
  assert (Hs : n_qubit_state 2 plus_zero) by (repeat split; vm_compute; reflexivity).
  assert (Hq : 0 < 2) by reflexivity.
  assert (Hf : all_finite (amplitudes_ plus_zero)) by evaluate_amplitudes.
  assert (Hk : 1 < 2 ^ 2) by reflexivity.
  repeat (split; [assumption|]).
  exact (pauli_z_keeps_probabilities 2 plus_zero 0 1 Hs Hq Hf Hk).
Defined.

Lemma cnot_source_lt control target k n :
  k < 2 ^ n -> target < n -> cnot_source control target k < 2 ^ n.
Proof.
  intros Hk Ht. unfold cnot_source. destruct (N.testbit k control); [|exact Hk].
  apply partner_lt; assumption.
Qed.

(** The controlled X, up to a relation [R] that the X rows respect. *)
Lemma cnot_lookup (P : Complex -> Prop) (R : Complex -> Complex -> Prop) n s control target k :
  (forall a, R a a) ->
  (forall a b, P a -> P b ->
     R (cadd (cmul (g00 Gates.pauli_x) a) (cmul (g01 Gates.pauli_x) b)) b) ->
  (forall a b, P a -> P b ->
     R (cadd (cmul (g10 Gates.pauli_x) a) (cmul (g11 Gates.pauli_x) b)) a) ->
  n_qubit_state n s -> target < n -> control <> target ->
  Forall P (amplitudes_ s) -> k < 2 ^ n ->
  exists a,
    amplitudes_ (apply_controlled_gate Gates.pauli_x control target s) !! N.to_nat k = Some a /\
    R a (vget (amplitudes_ s) (cnot_source control target k)).
Proof.
  intros Hrefl Hrow0 Hrow1 Hs Ht Hct Hp Hk.
  pose proof Hs as (Hnq & Hn & Hsz).
  rewrite controlled_lookup_split by lia.
  unfold cnot_source. destruct (N.testbit k control).
  - exact (exchange_once Gates.pauli_x P R Hrow0 Hrow1 n target Ht s k Hs Hp Hk).
  - exists (vget (amplitudes_ s) k). split; [apply vsize_lookup; lia|apply Hrefl].
Qed.

(** X6. On a state of [n] qubits with finite amplitudes, CNOT with
    [control <> target], [control < 64] and [target < n] moves
    probabilities exactly: the
    probability read at [k] afterwards is the one that was at [k] when the
    control bit of [k] is 0, and the one that was at the partner of [k] on
    the target when it is 1. *)
Theorem cnot_moves_probabilities (n : size_t) (s : QuantumState)
    (control target k : size_t) :
  n_qubit_state n s -> control < SIZE_WIDTH -> target < n -> control <> target ->
  all_finite (amplitudes_ s) -> k < 2 ^ n ->
  fst (get_probability (apply_controlled_gate Gates.pauli_x control target s) k) =
  fst (get_probability s (cnot_source control target k)).
Proof.
  intros Hs _ Ht Hct Hf Hk.
  destruct (cnot_lookup finite_amplitude same_amplitude n s control target k)
    as (a & Ha & HR); try assumption.
  { intros a. split; left; reflexivity. }
  { apply pauli_x_row0_finite. }
  { apply pauli_x_row1_finite. }
  rewrite (get_probability_lookup _ _ _ Ha).
  pose proof Hs as (_ & _ & Hsz).
  pose proof (cnot_source_lt control target k n Hk Ht) as Hp.
  rewrite (get_probability_lookup s _ (vget (amplitudes_ s) (cnot_source control target k)))
    by (apply vsize_lookup; lia).
  apply norm_same_amplitude, HR.
Qed.

Lemma cnot_moves_probabilities_witness :
  n_qubit_state 2 plus_zero /\ 0 < SIZE_WIDTH /\ 1 < 2 /\ 0 <> 1 /\
  all_finite (amplitudes_ plus_zero) /\ 3 < 2 ^ 2 /\
  fst (get_probability (apply_controlled_gate Gates.pauli_x 0 1 plus_zero) 3) =
  fst (get_probability plus_zero (cnot_source 0 1 3)).
Proof.
  assert (Hs : n_qubit_state 2 plus_zero) by (repeat split; vm_compute; reflexivity).
  assert (Ht : 1 < 2) by reflexivity.
  assert (Hct : 0 <> 1) by discriminate.
  assert (Hf : all_finite (amplitudes_ plus_zero)) by evaluate_amplitudes.
  assert (Hk : 3 < 2 ^ 2) by reflexivity.
  assert (Hc : 0 < SIZE_WIDTH) by reflexivity.
  repeat (split; [assumption|]).
  exact (cnot_moves_probabilities 2 plus_zero 0 1 3 Hs Hc Ht Hct Hf Hk).
Defined.

(** X7. On a state of [n] qubits whose amplitude components are finite and
    not the negative zero, Pauli-X on [target < n] and CNOT with
    [control < 64], [control <> target] move amplitudes without any
    rounding: the amplitude at [k] afterwards has the bits of the amplitude
    that was at the partner of [k] (for CNOT: when the control bit of [k]
    is 1, and of the amplitude at [k] itself otherwise). *)
Theorem pauli_x_and_cnot_move_amplitudes (n : size_t) (s : QuantumState)
    (control target k : size_t) :
  n_qubit_state n s -> control < SIZE_WIDTH -> target < n -> control <> target ->
  all_plain (amplitudes_ s) -> k < 2 ^ n ->
  amplitudes_ (apply_single_gate Gates.pauli_x target s) !! N.to_nat k =
    amplitudes_ s !! N.to_nat (partner target k) /\
  amplitudes_ (apply_controlled_gate Gates.pauli_x control target s) !! N.to_nat k =
    amplitudes_ s !! N.to_nat (cnot_source control target k).
Proof.
  intros Hs _ Ht Hct Hp Hk. pose proof Hs as (_ & _ & Hsz). split.
  - destruct (exchange_once Gates.pauli_x plain_amplitude eq
                pauli_x_row0_plain pauli_x_row1_plain n target Ht s k Hs Hp Hk)
      as (a & Ha & ->).
    rewrite Ha. symmetry. apply vsize_lookup.
    pose proof (partner_lt target k n Hk Ht). lia.
  - destruct (cnot_lookup plain_amplitude eq n s control target k) as (a & Ha & ->);
      try assumption.
    { reflexivity. }
    { apply pauli_x_row0_plain. }
    { apply pauli_x_row1_plain. }
    rewrite Ha. symmetry. apply vsize_lookup.
    pose proof (cnot_source_lt control target k n Hk Ht). lia.
Qed.

Lemma pauli_x_and_cnot_move_amplitudes_witness :
  n_qubit_state 2 plus_zero /\ 0 < SIZE_WIDTH /\ 1 < 2 /\ 0 <> 1 /\
  all_plain (amplitudes_ plus_zero) /\ 3 < 2 ^ 2 /\
  amplitudes_ (apply_single_gate Gates.pauli_x 1 plus_zero) !! N.to_nat 3 =
    amplitudes_ plus_zero !! N.to_nat (partner 1 3) /\
  amplitudes_ (apply_controlled_gate Gates.pauli_x 0 1 plus_zero) !! N.to_nat 3 =
    amplitudes_ plus_zero !! N.to_nat (cnot_source 0 1 3).
Proof.
  assert (Hs : n_qubit_state 2 plus_zero) by (repeat split; vm_compute; reflexivity).
  assert (Ht : 1 < 2) by reflexivity.
  assert (Hct : 0 <> 1) by discriminate.
  assert (Hp : all_plain (amplitudes_ plus_zero)) by evaluate_amplitudes.
  assert (Hk : 3 < 2 ^ 2) by reflexivity.
  assert (Hc : 0 < SIZE_WIDTH) by reflexivity.
  repeat (split; [assumption|]).
  exact (pauli_x_and_cnot_move_amplitudes 2 plus_zero 0 1 3 Hs Hc Ht Hct Hp Hk).
Defined.

(** ** The GHZ benchmark circuit *)

Lemma for_loop_last {A : Type} count : forall i (body : size_t -> A -> A) acc,
  for_loop (S count) i body acc = body (i + N.of_nat count) (for_loop count i body acc).
Proof.
  induction count as [|c IH]; intros i body acc.
  - simpl. rewrite N.add_0_r. reflexivity.
  - change (for_loop (S (S c)) i body acc)
      with (for_loop (S c) (N.succ i) body (body i acc)).
    rewrite IH. simpl for_loop at 2.
    f_equal. lia.
Qed.

Lemma QuantumState_new_vget n i :
  n < SIZE_WIDTH -> i < 2 ^ n ->
  vget (amplitudes_ (QuantumState_new n)) i = if i =? 0 then mkComplex 1 0 else mkComplex 0 0.
Proof.
  intros Hn Hi. unfold vget, QuantumState_new, vset. cbn [amplitudes_].
  rewrite (shl1_small _ Hn).
  pose proof (vsize_Zero (2 ^ n)) as Hz. unfold vsize in Hz.
  destruct (N.eqb_spec i 0) as [->|Hne].
  - rewrite list_lookup_insert_eq by lia. reflexivity.
  - rewrite list_lookup_insert_ne by lia.
    unfold Zero. rewrite lookup_replicate_2 by lia. reflexivity.
Qed.

Lemma ones_pred m : 2 ^ m - 1 = N.ones m.
Proof. rewrite N.ones_equiv, N.sub_1_r. reflexivity. Qed.

Lemma setbit_ones m : N.setbit (N.ones m) m = N.ones (N.succ m).
Proof.
  apply N.bits_inj. intros j. rewrite N.setbit_eqb.
  destruct (N.eqb_spec m j) as [->|Hne]; cbn [orb].
  - symmetry. apply N.ones_spec_low. lia.
  - destruct (N.lt_ge_cases j m) as [Hlt|Hge].
    + rewrite !N.ones_spec_low by lia. reflexivity.
    + rewrite !N.ones_spec_high by lia. reflexivity.
Qed.

Lemma hadamard_on_basis n k :
  1 <= n < SIZE_WIDTH -> k < 2 ^ n ->
  amplitudes_ (apply_single_gate Gates.hadamard 0 (QuantumState_new n)) !! N.to_nat k =
  Some (cat_amplitude 1 k).
Proof.
  intros [Hn1 Hn] Hk.
  destruct (QuantumState_new_n_qubit n Hn) as (_ & _ & Hsz).
  rewrite apply_single_gate_lookup by (try lia; reflexivity).
  f_equal. unfold after_pass, paired. rewrite !single_sel_bit, Hsz.
  unfold cat_amplitude. change (2 ^ 1 - 1) with 1.
  destruct (N.testbit k 0) eqn:Hb; cbv zeta.
  - rewrite N.clearbit_eq, (setbit_clearbit _ _ Hb). cbn [negb andb].
    pose proof (clearbit_le k 0).
    destruct (N.ltb_spec (N.clearbit k 0) (2 ^ n)); [|lia].
    destruct (N.ltb_spec k (2 ^ n)); [|lia]. cbn [andb].
    unfold row1. rewrite !QuantumState_new_vget by lia.
    assert (Hk0 : k <> 0) by (intros ->; discriminate Hb).
    destruct (N.eqb_spec k 0) as [|_]; [contradiction|]. cbn [orb].
    destruct (N.eqb_spec (N.clearbit k 0) 0) as [E|E].
    + assert (k = 1).
      { rewrite <- (setbit_clearbit _ _ Hb), E. reflexivity. }
      subst k. reflexivity.
    + destruct (N.eqb_spec k 1) as [->|_]; [exfalso; apply E; reflexivity|].
      reflexivity.
  - cbn [negb andb].
    assert (Hj : N.setbit k 0 < 2 ^ n) by (apply setbit_lt_pow2; lia).
    destruct (N.ltb_spec k (2 ^ n)); [|lia].
    destruct (N.ltb_spec (N.setbit k 0) (2 ^ n)); [|lia]. cbn [andb].
    unfold row0. rewrite !QuantumState_new_vget by lia.
    assert (Hj0 : N.setbit k 0 <> 0).
    { intros E. pose proof (N.setbit_eq k 0) as H1. rewrite E in H1. discriminate H1. }
    destruct (N.eqb_spec (N.setbit k 0) 0) as [|_]; [contradiction|].
    destruct (N.eqb_spec k 1) as [->|_]; [discriminate Hb|].
    rewrite orb_false_r.
    destruct (N.eqb_spec k 0); reflexivity.
Qed.

Lemma cat_amplitude_plain m k : plain_amplitude (cat_amplitude m k).
Proof.
  unfold cat_amplitude. destruct (_ || _); split; reflexivity.
Qed.

Lemma cat_amplitude_cnot m k :
  1 <= m -> cat_amplitude m (cnot_source 0 m k) = cat_amplitude (N.succ m) k.
Proof.
  intros Hm. unfold cat_amplitude, cnot_source, partner. rewrite !ones_pred.
  assert (Hodd : forall j, 1 <= j -> N.testbit (N.ones j) 0 = true)
    by (intros j Hj; apply N.ones_spec_low; lia).
  destruct (N.eqb_spec k 0) as [->|Hk0].
  { reflexivity. }
  destruct (N.eqb_spec k (N.ones (N.succ m))) as [->|Hk1]; cbn [orb].
  { rewrite Hodd by lia. rewrite N.ones_spec_low by lia.
    rewrite <- setbit_ones, clearbit_setbit by (apply N.ones_spec_high; lia).
    rewrite N.eqb_refl, orb_true_r. reflexivity. }
  destruct (N.testbit k 0) eqn:Hb0.
  - assert (Hne0 : forall x, N.testbit x 0 = true -> (x =? 0) = false).
    { intros x Hx. destruct (N.eqb_spec x 0) as [->|]; [discriminate Hx|reflexivity]. }
    destruct (N.testbit k m) eqn:Hbm.
    + rewrite Hne0 by (rewrite N.clearbit_neq by lia; exact Hb0). cbn [orb].
      destruct (N.eqb_spec (N.clearbit k m) (N.ones m)) as [E|_]; [|reflexivity].
      exfalso. apply Hk1. rewrite <- setbit_ones, <- E. symmetry.
      apply setbit_clearbit, Hbm.
    + rewrite Hne0 by (rewrite N.setbit_neq by lia; exact Hb0). cbn [orb].
      destruct (N.eqb_spec (N.setbit k m) (N.ones m)) as [E|_]; [|reflexivity].
      exfalso. pose proof (N.setbit_eq k m) as H1. rewrite E in H1.
      rewrite N.ones_spec_high in H1 by lia. discriminate H1.
  - destruct (N.eqb_spec k 0) as [|_]; [contradiction|]. cbn [orb].
    destruct (N.eqb_spec k (N.ones m)) as [->|_]; [|reflexivity].
    rewrite Hodd in Hb0 by lia. discriminate Hb0.
Qed.

(** One step of the loop of the GHZ circuit on the state. *)
Lemma cnot_extends_cat n m s :
  n_qubit_state n s -> 1 <= m < n ->
  (forall k, k < 2 ^ n -> amplitudes_ s !! N.to_nat k = Some (cat_amplitude m k)) ->
  forall k, k < 2 ^ n ->
    amplitudes_ (apply_controlled_gate Gates.pauli_x 0 m s) !! N.to_nat k =
    Some (cat_amplitude (N.succ m) k).
Proof.
  intros Hs [Hm1 Hmn] Hcat k Hk. pose proof Hs as (_ & _ & Hsz).
  assert (Hp : all_plain (amplitudes_ s)).
  { unfold all_plain. apply Forall_lookup. intros i a Hi.
    assert (Hlt : N.of_nat i < 2 ^ n).
    { apply lookup_lt_Some in Hi. unfold vsize in Hsz. lia. }
    rewrite <- (Nat2N.id i), (Hcat _ Hlt) in Hi.
    inversion Hi. apply cat_amplitude_plain. }
  destruct (cnot_lookup plain_amplitude eq n s 0 m k) as (a & Ha & ->);
    try assumption; try lia.
  { reflexivity. }
  { apply pauli_x_row0_plain. }
  { apply pauli_x_row1_plain. }
  rewrite Ha. f_equal.
  pose proof (cnot_source_lt 0 m k n Hk Hmn) as Hsrc.
  unfold vget. rewrite (Hcat _ Hsrc). cbn [default].
  apply cat_amplitude_cnot, Hm1.
Qed.

Lemma ghz_prefix_state n : 1 <= n < SIZE_WIDTH ->
  forall count, (count < N.to_nat n)%nat ->
  let c := for_loop count 1 (fun i circuit => QuantumCircuit.cnot 0 i circuit)
             (QuantumCircuit.h 0 (QuantumCircuit.new n)) in
  n_qubit_state n (fst (QuantumCircuit.execute c)) /\
  forall k, k < 2 ^ n ->
    amplitudes_ (fst (QuantumCircuit.execute c)) !! N.to_nat k =
    Some (cat_amplitude (N.succ (N.of_nat count)) k).
Proof.
  intros Hn. induction count as [|count IH]; intros Hc; cbv zeta.
  - cbn [for_loop]. unfold QuantumCircuit.h. rewrite execute_push_back.
    unfold apply_operation. cbn [type gate qubit].
    change (fst (QuantumCircuit.execute (QuantumCircuit.new n))) with (QuantumState_new n).
    split.
    + apply apply_single_gate_n_qubit, QuantumState_new_n_qubit. lia.
    + intros k Hk. apply hadamard_on_basis; assumption.
  - destruct IH as [IHs IHcat]; [lia|].
    rewrite for_loop_last. cbv beta.
    set (prev := for_loop count 1 _ _) in *. unfold QuantumCircuit.cnot.
    rewrite execute_push_back. unfold apply_operation. cbn [type gate control target].
    split.
    + apply apply_controlled_gate_n_qubit, IHs.
    + intros k Hk. rewrite Nat2N.inj_succ.
      replace (1 + N.of_nat count) with (N.succ (N.of_nat count)) by lia.
      apply (cnot_extends_cat n); try assumption. lia.
Qed.

(** X8. For [1 <= n < 64] the circuit built by [benchmark_ghz_state(n)]
    executes to the GHZ state, bit for bit: the amplitude is
    [(1/sqrt(2), 0)] at the indices [0] and [2^n - 1] and [(0, 0)] at every
    other index, so the probability is [inv_sqrt2 * inv_sqrt2 + 0 * 0] at
    those two indices and [0] elsewhere. *)
Theorem ghz_circuit_state (n k : size_t) :
  1 <= n < SIZE_WIDTH -> k < 2 ^ n ->
  let state := fst (QuantumCircuit.execute (BenchmarkRunner.ghz_circuit n)) in
  amplitudes_ state !! N.to_nat k = Some (cat_amplitude n k) /\
  fst (get_probability state k) =
    if (k =? 0) || (k =? 2 ^ n - 1) then (inv_sqrt2 * inv_sqrt2 + 0 * 0)%float else 0%float.
Proof.
  intros Hn Hk state.
  destruct (ghz_prefix_state n Hn (N.to_nat (n - 1))) as [_ Hcat]; [lia|].
  assert (Ha : amplitudes_ state !! N.to_nat k = Some (cat_amplitude n k)).
  { unfold state, BenchmarkRunner.ghz_circuit. rewrite (Hcat k Hk).
    do 2 f_equal. lia. }
  split; [exact Ha|].
  rewrite (get_probability_lookup _ _ _ Ha). unfold cat_amplitude.
  destruct (_ || _); reflexivity.
Qed.

Lemma ghz_circuit_state_witness :
  1 <= 3 < SIZE_WIDTH /\ 7 < 2 ^ 3 /\
  amplitudes_ (fst (QuantumCircuit.execute (BenchmarkRunner.ghz_circuit 3))) !! N.to_nat 7 =
    Some (cat_amplitude 3 7) /\
  fst (get_probability (fst (QuantumCircuit.execute (BenchmarkRunner.ghz_circuit 3))) 7) =
    if (7 =? 0) || (7 =? 2 ^ 3 - 1) then (inv_sqrt2 * inv_sqrt2 + 0 * 0)%float else 0%float.
Proof.
  assert (Hn : 1 <= 3 < SIZE_WIDTH) by (split; [discriminate|reflexivity]).
  assert (Hk : 7 < 2 ^ 3) by reflexivity.
  repeat (split; [assumption|]).
  exact (ghz_circuit_state 3 7 Hn Hk).
Defined.

Lemma for_loop_invariant {A : Type} (Inv : A -> Prop) count :
  forall i (body : size_t -> A -> A) acc,
  (forall k x, i <= k < i + N.of_nat count -> Inv x -> Inv (body k x)) ->
  Inv acc -> Inv (for_loop count i body acc).
Proof.
  induction count as [|c IH]; intros i body acc Hstep Hacc; [exact Hacc|].
  cbn [for_loop]. apply IH.
  - intros k x Hk. apply Hstep. lia.
  - apply Hstep; [lia|exact Hacc].
Qed.

Lemma num_operations_push_back op c :
  num_operations (QuantumCircuit.push_back op c) = num_operations c + 1.
Proof.
  unfold num_operations, QuantumCircuit.push_back. cbn [QuantumCircuit.operations_].
  rewrite length_app. cbn [length]. lia.
Qed.

Lemma in_range_push_back n op c :
  operation_in_range n op ->
  Forall (operation_in_range n) (QuantumCircuit.operations_ c) ->
  Forall (operation_in_range n)
    (QuantumCircuit.operations_ (QuantumCircuit.push_back op c)).
Proof.
  intros Hop Hc. unfold QuantumCircuit.push_back. cbn [QuantumCircuit.operations_].
  apply Forall_app. split; [exact Hc|]. constructor; [exact Hop|constructor].
Qed.

Lemma num_qubits_for_loop n count : forall i body acc,
  (forall k x, QuantumCircuit.num_qubits_ (body k x) = QuantumCircuit.num_qubits_ x) ->
  QuantumCircuit.num_qubits_ acc = n ->
  QuantumCircuit.num_qubits_ (for_loop count i body acc) = n.
Proof.
  intros i body acc Hbody Hacc.
  apply (for_loop_invariant (fun c => QuantumCircuit.num_qubits_ c = n)); [|exact Hacc].
  intros k x _ Hx. rewrite Hbody. exact Hx.
Qed.

(** X9. The circuit built by [benchmark_ghz_state(n)] declares [n] qubits
    and holds [n] operations when [n >= 1], every one with its indices in
    range, which is the gate count the benchmark reports; for [n = 0] it
    holds one operation, [h(0)], while the benchmark reports 0 gates. *)
Theorem ghz_circuit_operations (env : Readings) (n : size_t) :
  QuantumCircuit.num_qubits_ (BenchmarkRunner.ghz_circuit n) = n /\
  num_operations (BenchmarkRunner.ghz_circuit n) = N.max 1 n /\
  BenchmarkResult.num_gates (BenchmarkRunner.benchmark_ghz_state env n) = n /\
  (1 <= n ->
   Forall (operation_in_range n)
     (QuantumCircuit.operations_ (BenchmarkRunner.ghz_circuit n))).
Proof.
  unfold BenchmarkRunner.ghz_circuit.
  split; [|split; [|split; [reflexivity|]]].
  - apply num_qubits_for_loop; reflexivity.
  - assert (H : forall count i acc,
      num_operations (for_loop count i
        (fun i circuit => QuantumCircuit.cnot 0 i circuit) acc) =
      num_operations acc + N.of_nat count).
    { induction count as [|c IH]; intros i acc; cbn [for_loop]; [lia|].
      rewrite IH. unfold QuantumCircuit.cnot. rewrite num_operations_push_back. lia. }
    rewrite H. unfold QuantumCircuit.h. rewrite num_operations_push_back.
    change (num_operations (QuantumCircuit.new n)) with 0. lia.
  - intros Hn.
    apply (for_loop_invariant
             (fun c => Forall (operation_in_range n) (QuantumCircuit.operations_ c))).
    + intros k x Hk Hx. apply in_range_push_back; [|exact Hx].
      unfold operation_in_range. cbn [type control target]. lia.
    + apply in_range_push_back; [|constructor].
      unfold operation_in_range. cbn [type qubit]. lia.
Qed.

Lemma ghz_circuit_operations_witness :
  QuantumCircuit.num_qubits_ (BenchmarkRunner.ghz_circuit 3) = 3 /\
  num_operations (BenchmarkRunner.ghz_circuit 3) = N.max 1 3 /\
  BenchmarkResult.num_gates
    (BenchmarkRunner.benchmark_ghz_state (mkReadings 0 0 0) 3) = 3 /\
  1 <= 3 /\
  Forall (operation_in_range 3)
    (QuantumCircuit.operations_ (BenchmarkRunner.ghz_circuit 3)).
Proof.
  destruct (ghz_circuit_operations (mkReadings 0 0 0) 3) as (H1 & H2 & H3 & H4).
  assert (Hn : 1 <= 3) by discriminate.
  repeat (split; [assumption|]).
  exact (H4 Hn).
Defined.

(** ** The QFT benchmark circuit *)

Section QftCircuit.
Variable cexp : Complex -> Complex.

Lemma qft_inner_operations i j c :
  num_operations (BenchmarkRunner.qft_inner cexp i j c) = num_operations c + 4.
Proof.
  unfold BenchmarkRunner.qft_inner, QuantumCircuit.rz, QuantumCircuit.cnot.
  cbv zeta. rewrite !num_operations_push_back. lia.
Qed.

Lemma qft_inner_loop_operations i count : forall start c,
  num_operations (for_loop count start (BenchmarkRunner.qft_inner cexp i) c) =
  num_operations c + 4 * N.of_nat count.
Proof.
  induction count as [|k IH]; intros start c; cbn [for_loop]; [lia|].
  rewrite IH, qft_inner_operations. lia.
Qed.

Lemma qft_outer_operations n i c :
  num_operations (BenchmarkRunner.qft_outer cexp n i c) =
  num_operations c + 1 + 4 * (n - (i + 1)).
Proof.
  unfold BenchmarkRunner.qft_outer. cbv zeta.
  rewrite qft_inner_loop_operations. unfold QuantumCircuit.h.
  rewrite num_operations_push_back. lia.
Qed.

Lemma qft_outer_loop_operations n m :
  (m <= N.to_nat n)%nat ->
  num_operations (for_loop m 0 (BenchmarkRunner.qft_outer cexp n) (QuantumCircuit.new n))
    + N.of_nat m + 2 * N.of_nat m * N.of_nat m
  = 4 * N.of_nat m * n.
Proof.
  induction m as [|m IH]; intros Hm.
  - reflexivity.
  - rewrite for_loop_last, qft_outer_operations, N.add_0_l.
    specialize (IH ltac:(lia)).
    set (t := num_operations (for_loop m 0 _ _)) in *.
    rewrite Nat2N.inj_succ. nia.
Qed.

Lemma qft_inner_in_range n i j c :
  i < j < n ->
  Forall (operation_in_range n) (QuantumCircuit.operations_ c) ->
  Forall (operation_in_range n)
    (QuantumCircuit.operations_ (BenchmarkRunner.qft_inner cexp i j c)).
Proof.
  intros Hij Hc.
  unfold BenchmarkRunner.qft_inner, QuantumCircuit.rz, QuantumCircuit.cnot. cbv zeta.
  repeat (apply in_range_push_back;
          [unfold operation_in_range; cbn [type qubit control target]; lia|]).
  exact Hc.
Qed.

Lemma qft_outer_in_range n i c :
  i < n ->
  Forall (operation_in_range n) (QuantumCircuit.operations_ c) ->
  Forall (operation_in_range n)
    (QuantumCircuit.operations_ (BenchmarkRunner.qft_outer cexp n i c)).
Proof.
  intros Hi Hc. unfold BenchmarkRunner.qft_outer. cbv zeta.
  apply (for_loop_invariant
           (fun c => Forall (operation_in_range n) (QuantumCircuit.operations_ c))).
  - intros k x Hk Hx. apply qft_inner_in_range; [lia|exact Hx].
  - apply in_range_push_back; [|exact Hc].
    unfold operation_in_range. cbn [type qubit]. exact Hi.
Qed.

(** X10. For [n < 2^31] the circuit built by [benchmark_qft_circuit(n)]
    declares [n] qubits and holds [n + 2 n (n - 1)] operations, which is
    the gate count the benchmark reports; every operation has its indices
    below [n] and every CNOT has a control different from its target. *)
Theorem qft_circuit_operations (env : Readings) (n : size_t) :
  n < 2 ^ 31 ->
  QuantumCircuit.num_qubits_ (BenchmarkRunner.qft_circuit cexp n) = n /\
  num_operations (BenchmarkRunner.qft_circuit cexp n) = n + 2 * n * (n - 1) /\
  BenchmarkResult.num_gates (BenchmarkRunner.benchmark_qft_circuit cexp env n) =
    num_operations (BenchmarkRunner.qft_circuit cexp n) /\
  Forall (operation_in_range n)
    (QuantumCircuit.operations_ (BenchmarkRunner.qft_circuit cexp n)).
Proof.
  intros Hn.
  assert (Hcount : num_operations (BenchmarkRunner.qft_circuit cexp n) = n + 2 * n * (n - 1)).
  { pose proof (qft_outer_loop_operations n (N.to_nat n) ltac:(lia)) as H.
    unfold BenchmarkRunner.qft_circuit. cbv zeta.
    set (t := num_operations (for_loop _ 0 _ _)) in *.
    rewrite N2Nat.id in H. nia. }
  split; [|split; [exact Hcount|split]].
  - unfold BenchmarkRunner.qft_circuit. cbv zeta.
    apply num_qubits_for_loop; [|reflexivity].
    intros k x. unfold BenchmarkRunner.qft_outer. cbv zeta.
    apply num_qubits_for_loop; reflexivity.
  - rewrite Hcount. unfold BenchmarkRunner.benchmark_qft_circuit.
    cbn [BenchmarkResult.num_gates].
    unfold size_add, size_mul, size_sub.
    change (2 ^ SIZE_WIDTH) with 18446744073709551616 in *.
    change (2 ^ 31) with 2147483648 in Hn.
    change (1 mod 18446744073709551616) with 1.
    destruct (N.eq_dec n 0) as [->|Hn0]; [reflexivity|].
    replace ((n + (18446744073709551616 - 1)) mod 18446744073709551616) with (n - 1).
    2:{ symmetry. replace (n + (18446744073709551616 - 1))
          with ((n - 1) + 1 * 18446744073709551616) by lia.
        rewrite N.Div0.mod_add. apply N.mod_small. lia. }
    assert (Hp : n * (n - 1) < 2147483648 * 2147483648) by nia.
    rewrite (N.mod_small (n * (n - 1))) by lia.
    rewrite (N.mod_small (n * (n - 1) * 2)) by lia.
    rewrite N.mod_small by lia. lia.
  - unfold BenchmarkRunner.qft_circuit. cbv zeta.
    apply (for_loop_invariant
             (fun c => Forall (operation_in_range n) (QuantumCircuit.operations_ c))).
    + intros k x Hk Hx. apply qft_outer_in_range; [lia|exact Hx].
    + constructor.
Qed.
End QftCircuit.

Lemma qft_circuit_operations_witness :
  4 < 2 ^ 31 /\
  QuantumCircuit.num_qubits_ (BenchmarkRunner.qft_circuit (fun z => z) 4) = 4 /\
  num_operations (BenchmarkRunner.qft_circuit (fun z => z) 4) = 4 + 2 * 4 * (4 - 1) /\
  BenchmarkResult.num_gates
    (BenchmarkRunner.benchmark_qft_circuit (fun z => z) (mkReadings 0 0 0) 4) =
    num_operations (BenchmarkRunner.qft_circuit (fun z => z) 4) /\
  Forall (operation_in_range 4)
    (QuantumCircuit.operations_ (BenchmarkRunner.qft_circuit (fun z => z) 4)).
Proof.
  assert (Hn : 4 < 2 ^ 31) by reflexivity.
  split; [exact Hn|].
  exact (qft_circuit_operations (fun z => z) (mkReadings 0 0 0) 4 Hn).
Defined.

(** ** The random benchmark circuit *)

Lemma for_loop_indexed {A : Type} (Inv : nat -> A -> Prop) count :
  forall i (body : size_t -> A -> A) acc,
  Inv O acc ->
  (forall j x, (j < count)%nat -> Inv j x -> Inv (S j) (body (i + N.of_nat j) x)) ->
  Inv count (for_loop count i body acc).
Proof.
  induction count as [|c IH]; intros i body acc H0 Hstep; [exact H0|].
  rewrite for_loop_last. apply Hstep; [lia|].
  apply IH; [exact H0|]. intros j x Hj. apply Hstep. lia.
Qed.

Lemma int_size_t_draw n z :
  1 <= n <= 2 ^ 31 ->
  (0 <= z <= int_of_size_t (size_sub n 1%N))%Z ->
  size_t_of_int z < n.
Proof.
  intros Hn Hz. unfold int_of_size_t, size_sub, size_t_of_int in *.
  change (2 ^ SIZE_WIDTH) with 18446744073709551616 in *.
  change (2 ^ 31) with 2147483648 in Hn.
  change (1 mod 18446744073709551616) with 1 in Hz.
  replace ((n + (18446744073709551616 - 1)) mod 18446744073709551616) with (n - 1) in Hz.
  2:{ symmetry. replace (n + (18446744073709551616 - 1))
        with ((n - 1) + 1 * 18446744073709551616) by lia.
      rewrite N.Div0.mod_add. apply N.mod_small. lia. }
  cbv zeta in Hz.
  change (2 ^ 32)%Z with 4294967296%Z in Hz. change (2 ^ 31)%Z with 2147483648%Z in Hz.
  rewrite (Z.mod_small (Z.of_N (n - 1))) in Hz by lia.
  destruct (Z.ltb_spec (Z.of_N (n - 1)) 2147483648); [|lia].
  change (2 ^ 64)%Z with 18446744073709551616%Z.
  rewrite Z.mod_small by lia. lia.
Qed.

Section RandomCircuit.
Variables cos sin : float -> float.
Variable cexp : Complex -> Complex.
Variable G : Type.
Variable uniform_int : Z -> Z -> G -> Z * G.
Variable uniform_real : float -> float -> G -> float * G.

Local Abbreviation random_gate := (BenchmarkRunner.random_gate cos sin cexp).
Local Abbreviation random_gate_step :=
  (BenchmarkRunner.random_gate_step cos sin cexp G uniform_int uniform_real).
Local Abbreviation redraw_target := (BenchmarkRunner.redraw_target G uniform_int).
Local Abbreviation random_cnot_step := (BenchmarkRunner.random_cnot_step G uniform_int).
Local Abbreviation random_circuit :=
  (BenchmarkRunner.random_circuit cos sin cexp G uniform_int uniform_real).
Local Abbreviation benchmark_random_circuit :=
  (BenchmarkRunner.benchmark_random_circuit cos sin cexp G uniform_int uniform_real).
Local Abbreviation draw n gen :=
  (size_t_of_int (fst (uniform_int 0 (int_of_size_t (size_sub n 1)) gen))).

Lemma random_gate_appends gate_type q angle c :
  exists g, random_gate gate_type q angle c =
            QuantumCircuit.push_back (mkOperation SINGLE_GATE g q 0 0) c.
Proof.
  unfold BenchmarkRunner.random_gate.
  destruct gate_type as [|p|p]; [eexists; reflexivity| |eexists; reflexivity].
  do 3 (try destruct p as [p|p|]); eexists; reflexivity.
Qed.

Lemma generated_push_back Q n m op c :
  Q op -> generated Q n m c -> generated Q n (m + 1) (QuantumCircuit.push_back op c).
Proof.
  intros Hop (Hn & Hm & Hall). split; [exact Hn|]. split.
  - rewrite num_operations_push_back, Hm. reflexivity.
  - unfold QuantumCircuit.push_back. cbn [QuantumCircuit.operations_].
    apply Forall_app. split; [exact Hall|]. constructor; [exact Hop|constructor].
Qed.

(** The generation loops, for a property [D] of every drawn index and a
    property [Q] of operations that single gates on drawn qubits and CNOTs
    on two different drawn qubits have. *)
Section Generation.
Variable n : size_t.
Variable D : size_t -> Prop.
Variable Q : Operation -> Prop.
Hypothesis D_draw : forall gen, D (draw n gen).
Hypothesis Q_single : forall g q, D q -> Q (mkOperation SINGLE_GATE g q 0 0).
Hypothesis Q_controlled : forall g c t,
  D c -> D t -> t <> c -> Q (mkOperation CONTROLLED_GATE g 0 c t).

Lemma redraw_target_result fuel : forall control target gen t gen',
  D target ->
  redraw_target fuel n control target gen = Some (t, gen') -> D t /\ t <> control.
Proof.
  induction fuel as [|f IH]; intros control target gen t gen' Ht;
    cbn [BenchmarkRunner.redraw_target];
    destruct (N.eqb_spec target control) as [E|E]; try discriminate.
  - intros H. inversion H. subst. split; assumption.
  - pose proof (D_draw gen) as Hd.
    destruct (uniform_int 0 (int_of_size_t (size_sub n 1)) gen) as [z g1].
    apply IH. exact Hd.
  - intros H. inversion H. subst. split; assumption.
Qed.

Lemma random_gate_step_generated i m c gen :
  generated Q n m c ->
  generated Q n (m + 1) (fst (random_gate_step n i (c, gen))).
Proof.
  intros Hc. unfold BenchmarkRunner.random_gate_step.
  destruct (uniform_int 0 5 gen) as [gate_type g1].
  pose proof (D_draw g1) as Hd.
  destruct (uniform_int 0 (int_of_size_t (size_sub n 1)) g1) as [q g2].
  destruct (uniform_real 0%float (2 * PI)%float g2) as [angle g3].
  cbn [fst] in *.
  destruct (random_gate_appends gate_type (size_t_of_int q) angle c) as [g ->].
  apply generated_push_back; [|exact Hc]. apply Q_single, Hd.
Qed.

Lemma random_cnot_step_generated fuel i m c gen c' gen' :
  generated Q n m c ->
  random_cnot_step fuel n i (Some (c, gen)) = Some (c', gen') ->
  generated Q n (m + 1) c'.
Proof.
  intros Hc. unfold BenchmarkRunner.random_cnot_step.
  pose proof (D_draw gen) as Hd1.
  destruct (uniform_int 0 (int_of_size_t (size_sub n 1)) gen) as [cz g1].
  pose proof (D_draw g1) as Hd2.
  destruct (uniform_int 0 (int_of_size_t (size_sub n 1)) g1) as [tz g2].
  cbn [fst] in *.
  destruct (BenchmarkRunner.redraw_target G uniform_int fuel n
              (size_t_of_int cz) (size_t_of_int tz) g2) as [[t g3]|] eqn:Hr;
    [|discriminate].
  intros H. inversion H. subst c' gen'.
  destruct (redraw_target_result _ _ _ _ _ _ Hd2 Hr) as [Ht Hne].
  unfold QuantumCircuit.cnot. apply generated_push_back; [|exact Hc].
  apply Q_controlled; assumption.
Qed.

Lemma random_circuit_generated fuel gen num_gates c :
  random_circuit fuel gen n num_gates = Some c ->
  generated Q n (num_gates + num_gates / 4) c.
Proof.
  unfold BenchmarkRunner.random_circuit.
  assert (H1 : generated Q n (N.of_nat (N.to_nat num_gates))
                 (fst (for_loop (N.to_nat num_gates) 0 (random_gate_step n)
                         (QuantumCircuit.new n, gen)))).
  { apply (for_loop_indexed
             (fun j (acc : QuantumCircuit.t * G) => generated Q n (N.of_nat j) (fst acc))).
    - repeat split. constructor.
    - intros j [c0 g0] _ Hj. rewrite Nat2N.inj_succ, <- N.add_1_r.
      apply random_gate_step_generated. exact Hj. }
  destruct (for_loop (N.to_nat num_gates) 0 (random_gate_step n)
              (QuantumCircuit.new n, gen)) as [c1 g1].
  cbn [fst] in H1. rewrite N2Nat.id in H1.
  assert (H2 : match for_loop (N.to_nat (num_gates / 4)) 0 (random_cnot_step fuel n)
                       (Some (c1, g1)) with
               | None => True
               | Some (c2, _) =>
                   generated Q n (num_gates + N.of_nat (N.to_nat (num_gates / 4))) c2
               end).
  { apply (for_loop_indexed
             (fun j (acc : option (QuantumCircuit.t * G)) =>
                match acc with
                | None => True
                | Some (c2, _) => generated Q n (num_gates + N.of_nat j) c2
                end)).
    - rewrite N.add_0_r. exact H1.
    - intros j [[c2 g2]|] _ Hj; [|exact I].
      destruct (random_cnot_step fuel n (0 + N.of_nat j) (Some (c2, g2)))
        as [[c3 g3]|] eqn:Hs; [|exact I].
      rewrite Nat2N.inj_succ, <- N.add_1_r, N.add_assoc.
      exact (random_cnot_step_generated _ _ _ _ _ _ _ Hj Hs). }
  destruct (for_loop (N.to_nat (num_gates / 4)) 0 (random_cnot_step fuel n)
              (Some (c1, g1))) as [[c2 g2]|]; [|discriminate].
  intros H. inversion H. subst c2. rewrite N2Nat.id in H2. exact H2.
Qed.
End Generation.

(** X11. Whenever [benchmark_random_circuit] builds its circuit (the redraw
    loops all end), the circuit declares [num_qubits] qubits and holds
    [num_gates + num_gates / 4] operations, which is the gate count the
    benchmark reports, and every CNOT in it has a control different from its
    target; this holds for every random engine and distribution. *)
Theorem random_circuit_operations (fuel : nat) (env : Readings) (gen : G)
    (num_qubits num_gates : size_t) (c : QuantumCircuit.t) :
  num_gates < 2 ^ 63 ->
  random_circuit fuel gen num_qubits num_gates = Some c ->
  generated control_differs num_qubits (num_gates + num_gates / 4) c /\
  exists r, benchmark_random_circuit fuel env gen num_qubits num_gates = Some r /\
            BenchmarkResult.num_gates r = num_operations c.
Proof.
  intros Hg Hc.
  assert (Hgen : generated control_differs num_qubits (num_gates + num_gates / 4) c).
  { apply (random_circuit_generated num_qubits (fun _ => True) control_differs)
      with (fuel := fuel) (gen := gen); try assumption.
    - intros; exact I.
    - intros g q _ Hty. discriminate Hty.
    - intros g c0 t _ _ Hne _. cbn [control target]. congruence. }
  split; [exact Hgen|].
  unfold BenchmarkRunner.benchmark_random_circuit. rewrite Hc.
  eexists. split; [reflexivity|]. cbn [BenchmarkResult.num_gates].
  destruct Hgen as (_ & -> & _). unfold size_add.
  change (2 ^ SIZE_WIDTH) with 18446744073709551616.
  change (2 ^ 63) with 9223372036854775808 in Hg.
  pose proof (N.Div0.div_le_upper_bound num_gates 4 num_gates ltac:(lia)).
  apply N.mod_small. lia.
Qed.

(** X12. If the integer distribution keeps its contract and
    [1 <= num_qubits <= 2^31], every operation of the circuit built by
    [benchmark_random_circuit] has its indices below [num_qubits] (and every
    CNOT two different ones): the generated circuit never takes the
    out-of-range path of the gate applications. *)
Theorem random_circuit_in_range (fuel : nat) (gen : G)
    (num_qubits num_gates : size_t) (c : QuantumCircuit.t) :
  draws_within_bounds uniform_int ->
  1 <= num_qubits <= 2 ^ 31 ->
  random_circuit fuel gen num_qubits num_gates = Some c ->
  Forall (operation_in_range num_qubits) (QuantumCircuit.operations_ c).
Proof.
  intros Hcontract Hn Hc.
  assert (Hgen : generated (operation_in_range num_qubits) num_qubits
                   (num_gates + num_gates / 4) c).
  { apply (random_circuit_generated num_qubits (fun q => q < num_qubits)
             (operation_in_range num_qubits)) with (fuel := fuel) (gen := gen);
      try assumption.
    - intros g0. apply int_size_t_draw; [exact Hn|].
      apply Hcontract.
      unfold int_of_size_t, size_sub.
      change (2 ^ SIZE_WIDTH) with 18446744073709551616.
      change (1 mod 18446744073709551616) with 1.
      replace ((num_qubits + (18446744073709551616 - 1)) mod 18446744073709551616)
        with (num_qubits - 1).
      2:{ symmetry. replace (num_qubits + (18446744073709551616 - 1))
            with ((num_qubits - 1) + 1 * 18446744073709551616) by lia.
          rewrite N.Div0.mod_add. apply N.mod_small.
          change (2 ^ 31) with 2147483648 in Hn. lia. }
      cbv zeta. change (2 ^ 31) with 2147483648 in Hn.
      change (2 ^ 32)%Z with 4294967296%Z. change (2 ^ 31)%Z with 2147483648%Z.
      rewrite Z.mod_small by lia.
      destruct (Z.ltb_spec (Z.of_N (num_qubits - 1)) 2147483648); lia.
    - intros g q Hq. exact Hq.
    - intros g c0 t Hc0 Ht Hne. unfold operation_in_range.
      cbn [type control target]. repeat split; try assumption. congruence. }
  destruct Hgen as (_ & _ & Hall). exact Hall.
Qed.

Lemma for_loop_none {A : Type} count : forall i (body : size_t -> option A -> option A),
  (forall k, body k None = None) -> for_loop count i body None = None.
Proof.
  induction count as [|k IH]; intros i body Hnone; cbn [for_loop]; [reflexivity|].
  rewrite Hnone. apply IH, Hnone.
Qed.

Lemma redraw_target_one_qubit fuel :
  draws_within_bounds uniform_int ->
  forall gen, redraw_target fuel 1 0 0 gen = None.
Proof.
  intros Hcontract. induction fuel as [|f IH]; intros gen;
    cbn [BenchmarkRunner.redraw_target N.eqb]; [reflexivity|].
  change (int_of_size_t (size_sub 1 1)) with 0%Z.
  pose proof (Hcontract 0%Z 0%Z gen ltac:(lia)) as Hd.
  destruct (uniform_int 0 0 gen) as [z g1]. cbn [fst] in Hd.
  assert (z = 0%Z) by lia. subst z. apply IH.
Qed.

(** X13. On one qubit the redraw loop of [benchmark_random_circuit] cannot
    end: if the integer distribution keeps its contract, both draws are 0,
    so [target == control] holds for ever. With [num_gates >= 4] (at least
    one CNOT) the function returns for no bound on the iterations. *)
Theorem random_circuit_one_qubit_never_returns (fuel : nat) (env : Readings) (gen : G)
    (num_gates : size_t) :
  draws_within_bounds uniform_int ->
  4 <= num_gates ->
  random_circuit fuel gen 1 num_gates = None /\
  benchmark_random_circuit fuel env gen 1 num_gates = None.
Proof.
  intros Hcontract Hg.
  assert (Hnone : random_circuit fuel gen 1 num_gates = None).
  { unfold BenchmarkRunner.random_circuit.
    destruct (for_loop (N.to_nat num_gates) 0 (random_gate_step 1)
                (QuantumCircuit.new 1, gen)) as [c1 g1].
    assert (Hq : 1 <= num_gates / 4).
    { apply N.div_le_lower_bound; lia. }
    destruct (N.to_nat (num_gates / 4)) as [|k] eqn:Hk; [lia|].
    cbn [for_loop].
    assert (Hstep : random_cnot_step fuel 1 0 (Some (c1, g1)) = None).
    { unfold BenchmarkRunner.random_cnot_step.
      change (int_of_size_t (size_sub 1 1)) with 0%Z.
      pose proof (Hcontract 0%Z 0%Z g1 ltac:(lia)) as Hd1.
      destruct (uniform_int 0 0 g1) as [cz g2]. cbn [fst] in Hd1.
      pose proof (Hcontract 0%Z 0%Z g2 ltac:(lia)) as Hd2.
      destruct (uniform_int 0 0 g2) as [tz g3]. cbn [fst] in Hd2.
      assert (cz = 0%Z) by lia. assert (tz = 0%Z) by lia. subst cz tz.
      change (size_t_of_int 0) with 0.
      rewrite (redraw_target_one_qubit fuel Hcontract). reflexivity. }
    rewrite Hstep. rewrite for_loop_none; [reflexivity|]. reflexivity. }
  split; [exact Hnone|].
  unfold BenchmarkRunner.benchmark_random_circuit. rewrite Hnone. reflexivity.
Qed.
End RandomCircuit.

Lemma counter_int_within_bounds : draws_within_bounds counter_int.
Proof.
  intros a b gen Hab. unfold counter_int. cbn [fst].
  pose proof (Z.mod_pos_bound (Z.of_nat gen) (b - a + 1) ltac:(lia)). lia.
Defined.

Lemma random_circuit_operations_witness :
  exists c,
    4 < 2 ^ 63 /\
    BenchmarkRunner.random_circuit (fun x => x) (fun x => x) (fun z => z)
      nat counter_int counter_real 5 O 2 4 = Some c /\
    generated control_differs 2 (4 + 4 / 4) c /\
    exists r,
      BenchmarkRunner.benchmark_random_circuit (fun x => x) (fun x => x) (fun z => z)
        nat counter_int counter_real 5 (mkReadings 0 0 0) O 2 4 = Some r /\
      BenchmarkResult.num_gates r = num_operations c.
Proof.
  eexists.
  assert (Hg : 4 < 2 ^ 63) by reflexivity.
  split; [exact Hg|].
  refine ((fun Hc => conj Hc
            (random_circuit_operations (fun x => x) (fun x => x) (fun z => z)
               nat counter_int counter_real 5 (mkReadings 0 0 0) O 2 4 _ Hg Hc)) _).
  vm_compute. reflexivity.
Defined.

Lemma random_circuit_in_range_witness :
  exists c,
    draws_within_bounds counter_int /\
    1 <= 2 <= 2 ^ 31 /\
    BenchmarkRunner.random_circuit (fun x => x) (fun x => x) (fun z => z)
      nat counter_int counter_real 5 O 2 4 = Some c /\
    Forall (operation_in_range 2) (QuantumCircuit.operations_ c).
Proof.
  eexists.
  assert (Hn : 1 <= 2 <= 2 ^ 31) by (split; discriminate).
  split; [exact counter_int_within_bounds|]. split; [exact Hn|].
  refine ((fun Hc => conj Hc
            (random_circuit_in_range (fun x => x) (fun x => x) (fun z => z)
               nat counter_int counter_real 5 O 2 4 _
               counter_int_within_bounds Hn Hc)) _).
  vm_compute. reflexivity.
Defined.

Lemma random_circuit_one_qubit_never_returns_witness :
  draws_within_bounds counter_int /\ 4 <= 4 /\
  BenchmarkRunner.random_circuit (fun x => x) (fun x => x) (fun z => z)
    nat counter_int counter_real 7 O 1 4 = None /\
  BenchmarkRunner.benchmark_random_circuit (fun x => x) (fun x => x) (fun z => z)
    nat counter_int counter_real 7 (mkReadings 0 0 0) O 1 4 = None.
Proof.
  assert (Hg : 4 <= 4) by discriminate.
  split; [exact counter_int_within_bounds|]. split; [exact Hg|].
  exact (random_circuit_one_qubit_never_returns (fun x => x) (fun x => x) (fun z => z)
           nat counter_int counter_real 7 (mkReadings 0 0 0) O 4
           counter_int_within_bounds Hg).
Defined.

(** ** Range of the probabilities *)

Section Binary64Sign.
Local Open Scope Z_scope.

Lemma binary_round_aux_not_negative m e l :
  sf_not_negative (binary_round_aux prec emax false m e l).
Proof.
  unfold binary_round_aux.
  destruct (shr_fexp prec emax m e l) as [mrs e1].
  destruct (shr_fexp prec emax _ e1 loc_Exact) as [mrs2 e2].
  destruct (shr_m mrs2); cbn; [exact I| |exact I].
  destruct (e2 <=? emax - prec); reflexivity.
Qed.

Lemma SF64mul_square_not_negative x : sf_not_negative (SF64mul x x).
Proof.
  destruct x as [s|s| |s m e]; cbn; try exact I.
  - destruct s; reflexivity.
  - replace (xorb s s) with false by (destruct s; reflexivity).
    apply binary_round_aux_not_negative.
Qed.

Lemma SF64add_not_negative x y :
  sf_not_negative x -> sf_not_negative y -> sf_not_negative (SF64add x y).
Proof.
  destruct x as [sx|sx| |sx mx ex], y as [sy|sy| |sy my ey]; cbn;
    intros Hx Hy; subst; try exact I; try reflexivity.
  - destruct sx, sy; exact I.
  - set (a := fst (shl_align mx ex (Z.min ex ey))).
    set (b := fst (shl_align my ey (Z.min ex ey))).
    unfold binary_normalize, binary_round.
    change (cond_Zopp false (Z.pos a) + cond_Zopp false (Z.pos b))
      with (Z.pos (a + b)).
    cbv iota beta.
    destruct (shl_align (a + b)%positive _ _) as [mz ez].
    apply binary_round_aux_not_negative.
Qed.

Lemma not_negative_leb x :
  sf_not_negative (Prim2SF x) -> isnan x = true \/ (0 <=? x)%float = true.
Proof.
  intros Hx. unfold isnan. rewrite classify_spec, leb_spec.
  change (Prim2SF 0) with (S754_zero false).
  destruct (Prim2SF x) as [s|s| |s m e]; cbn in Hx; subst.
  - right. reflexivity.
  - right. reflexivity.
  - left. reflexivity.
  - right. reflexivity.
Qed.
End Binary64Sign.

(** X14. [get_probability] never returns a negative number: for every
    state and every index the result is NaN or compares [>= 0]. *)
Theorem get_probability_not_negative (s : QuantumState) (index : size_t) :
  isnan (fst (get_probability s index)) = true \/
  (0 <=? fst (get_probability s index))%float = true.
Proof.
  unfold get_probability.
  destruct (index <? vsize (amplitudes_ s)); cbn [fst]; [|right; reflexivity].
  apply not_negative_leb. unfold norm. rewrite add_spec, !mul_spec.
  apply SF64add_not_negative; apply SF64mul_square_not_negative.
Qed.

(** X15. For [n < 64] the freshly constructed state has probability
    exactly 1 at index 0 and exactly 0 at every other index, in range or
    not. *)
Theorem QuantumState_new_probabilities (n index : size_t) :
  n < SIZE_WIDTH ->
  fst (get_probability (QuantumState_new n) index) = if index =? 0 then 1%float else 0%float.
Proof.
  intros Hn. destruct (QuantumState_new_n_qubit n Hn) as (_ & _ & Hsz).
  unfold get_probability. rewrite Hsz.
  pose proof (N.pow_nonzero 2 n ltac:(lia)) as Hpos.
  destruct (N.ltb_spec index (2 ^ n)) as [Hi|Hi]; cbn [fst].
  - rewrite QuantumState_new_vget by assumption.
    destruct (index =? 0); reflexivity.
  - destruct (N.eqb_spec index 0); [lia|reflexivity].
Qed.

Lemma QuantumState_new_probabilities_witness :
  3 < SIZE_WIDTH /\
  fst (get_probability (QuantumState_new 3) 8) = if 8 =? 0 then 1%float else 0%float.
Proof.
  assert (Hn : 3 < SIZE_WIDTH) by reflexivity.
  split; [exact Hn|]. exact (QuantumState_new_probabilities 3 8 Hn).
Defined.

(** ** Probabilities under Pauli-Y *)

Section Binary64Commutes.
Local Open Scope Z_scope.

Lemma SF64add_comm x y : SF64add x y = SF64add y x.
Proof.
  unfold SF64add, SFadd.
  destruct x as [[|]|[|]| |sx mx ex], y as [[|]|[|]| |sy my ey]; try reflexivity.
  cbv zeta. rewrite (Z.min_comm ey ex).
  rewrite (Z.add_comm (cond_Zopp sy _)). reflexivity.
Qed.

Lemma add_comm_double x y : (x + y)%float = (y + x)%float.
Proof. apply Prim2SF_inj. rewrite !add_spec. apply SF64add_comm. Qed.

Lemma opp_involutive x : (- - x)%float = x.
Proof.
  apply Prim2SF_inj. rewrite !opp_spec.
  destruct (Prim2SF x) as [[|]|[|]| |[|] m e]; reflexivity.
Qed.

Lemma zero_sub_finite x z :
  isfinite x = true -> is_zero z = true -> same_double (z - x)%float (- x)%float.
Proof.
  intros Hx Hz. destruct (isfinite_sf x Hx) as [Hx0|(s' & m & e & Hxe & _)].
  - right. apply is_zero_sf in Hx0. split; [apply sub_zeros; assumption|].
    apply is_zero_sf. rewrite opp_spec.
    apply is_zero_sf in Hx0. destruct Hx0 as [s ->]. eexists. reflexivity.
  - left. apply is_zero_sf in Hz. destruct Hz as [s Hz].
    apply Prim2SF_inj. rewrite sub_spec, opp_spec, Hz, Hxe. reflexivity.
Qed.

End Binary64Commutes.

Lemma pauli_y_row0_norm a b :
  finite_amplitude a -> finite_amplitude b ->
  norm (cadd (cmul (g00 Gates.pauli_y) a) (cmul (g01 Gates.pauli_y) b)) = norm b.
Proof.
  intros [Har Hai] [Hbr Hbi].
  destruct a as [ar ai], b as [br bi]. cbn [real imag] in *.
  unfold cadd, cmul, Gates.pauli_y, of_real, norm. cbn [real imag g00 g01].
  rewrite !mul_minus_one_finite by assumption.
  pose proof (opp_isfinite _ Hbr) as Hnbr. pose proof (opp_isfinite _ Hbi) as Hnbi.
  assert (Hre : same_double (0 * ar - 0 * ai + (0 * br - - bi))%float bi).
  { apply zero_add_same; [assumption| |].
    - apply sub_zeros; apply mul_zero_finite; assumption.
    - rewrite <- (opp_involutive bi) at 2.
      apply zero_sub_finite; [assumption|apply mul_zero_finite; assumption]. }
  assert (Him : same_double (0 * ai + 0 * ar + (0 * bi + - br))%float (- br)%float).
  { apply zero_add_same; [assumption| |].
    - apply add_zeros; apply mul_zero_finite; assumption.
    - apply zero_add_same; [assumption|apply mul_zero_finite; assumption|left; reflexivity]. }
  rewrite (square_same_double _ _ Hre), (square_same_double _ _ Him), square_opp.
  apply add_comm_double.
Qed.

Lemma pauli_y_row1_norm a b :
  finite_amplitude a -> finite_amplitude b ->
  norm (cadd (cmul (g10 Gates.pauli_y) a) (cmul (g11 Gates.pauli_y) b)) = norm a.
Proof.
  intros [Har Hai] [Hbr Hbi].
  destruct a as [ar ai], b as [br bi]. cbn [real imag] in *.
  unfold cadd, cmul, Gates.pauli_y, of_real, norm. cbn [real imag g10 g11].
  rewrite !mul_one_finite by assumption.
  pose proof (opp_isfinite _ Hai) as Hnai.
  assert (Hre : same_double (0 * ar - ai + (0 * br - 0 * bi))%float (- ai)%float).
  { apply add_zero_same; [assumption| |].
    - apply sub_zeros; apply mul_zero_finite; assumption.
    - apply zero_sub_finite; [assumption|apply mul_zero_finite; assumption]. }
  assert (Him : same_double (0 * ai + ar + (0 * bi + 0 * br))%float ar).
  { apply add_zero_same; [assumption| |].
    - apply add_zeros; apply mul_zero_finite; assumption.
    - apply zero_add_same; [assumption|apply mul_zero_finite; assumption|left; reflexivity]. }
  rewrite (square_same_double _ _ Hre), (square_same_double _ _ Him), square_opp.
  apply add_comm_double.
Qed.

(** X16. On a state of [n] qubits with finite amplitudes, Pauli-Y on a
    qubit [q < n] exchanges the probabilities of every pair exactly, as
    Pauli-X does. *)
Theorem pauli_y_exchanges_probabilities (n : size_t) (s : QuantumState) (q k : size_t) :
  n_qubit_state n s -> q < n -> all_finite (amplitudes_ s) -> k < 2 ^ n ->
  fst (get_probability (apply_single_gate Gates.pauli_y q s) k) =
  fst (get_probability s (partner q k)).
Proof.
  intros Hs Hq Hf Hk.
  destruct (exchange_once Gates.pauli_y finite_amplitude (fun a b => norm a = norm b)
              pauli_y_row0_norm pauli_y_row1_norm n q Hq s k Hs Hf Hk) as (a & Ha & HR).
  rewrite (get_probability_lookup _ _ _ Ha).
  pose proof Hs as (_ & _ & Hsz).
  pose proof (partner_lt q k n Hk Hq) as Hp.
  rewrite (get_probability_lookup s (partner q k) (vget (amplitudes_ s) (partner q k)))
    by (apply vsize_lookup; lia).
  exact HR.
Qed.

Lemma pauli_y_exchanges_probabilities_witness :
  n_qubit_state 2 plus_zero /\ 1 < 2 /\ all_finite (amplitudes_ plus_zero) /\ 1 < 2 ^ 2 /\
  fst (get_probability (apply_single_gate Gates.pauli_y 1 plus_zero) 1) =
  fst (get_probability plus_zero (partner 1 1)).
Proof.
  assert (Hs : n_qubit_state 2 plus_zero) by (repeat split; vm_compute; reflexivity).
  assert (Hq : 1 < 2) by reflexivity.
  assert (Hf : all_finite (amplitudes_ plus_zero)) by evaluate_amplitudes.
  assert (Hk : 1 < 2 ^ 2) by reflexivity.
  repeat (split; [assumption|]).
  exact (pauli_y_exchanges_probabilities 2 plus_zero 1 1 Hs Hq Hf Hk).
Defined.

(** ** CNOT applied twice *)

Lemma cnot_source_involutive control target k :
  control <> target -> cnot_source control target (cnot_source control target k) = k.
Proof.
  intros Hct. unfold cnot_source. destruct (N.testbit k control) eqn:Hc.
  - assert (Hc' : N.testbit (partner target k) control = true).
    { unfold partner. destruct (N.testbit k target).
      - rewrite N.clearbit_neq by (intros E; apply Hct; symmetry; exact E). exact Hc.
      - rewrite N.setbit_neq by (intros E; apply Hct; symmetry; exact E). exact Hc. }
    rewrite Hc'. apply partner_involutive.
  - rewrite Hc. reflexivity.
Qed.

Lemma cnot_keeps_plain n s control target :
  n_qubit_state n s -> target < n -> control <> target -> all_plain (amplitudes_ s) ->
  all_plain (amplitudes_ (apply_controlled_gate Gates.pauli_x control target s)).
Proof.
  intros Hs Ht Hct Hp. pose proof Hs as (_ & _ & Hsz).
  unfold all_plain. apply Forall_lookup. intros i a Hi.
  assert (Hlt : N.of_nat i < 2 ^ n).
  { apply lookup_lt_Some in Hi.
    pose proof (apply_controlled_gate_vsize Gates.pauli_x control target s) as Hv.
    unfold vsize in *. lia. }
  rewrite <- (Nat2N.id i) in Hi.
  destruct (cnot_lookup plain_amplitude eq n s control target (N.of_nat i))
    as (a' & Ha' & ->); try assumption.
  { reflexivity. }
  { apply pauli_x_row0_plain. }
  { apply pauli_x_row1_plain. }
  assert (a = vget (amplitudes_ s) (cnot_source control target (N.of_nat i)))
    by congruence.
  subst a. apply (Forall_vget plain_amplitude); [exact Hp|].
  pose proof (cnot_source_lt control target _ n Hlt Ht). lia.
Qed.

(** X17. On a state of [n] qubits whose amplitude components are finite
    and not the negative zero, CNOT with [control < 64], [target < n] and
    [control <> target] applied twice gives back the very same state, bit
    for bit. *)
Theorem cnot_twice_plain (n : size_t) (s : QuantumState) (control target : size_t) :
  n_qubit_state n s -> control < SIZE_WIDTH -> target < n -> control <> target ->
  all_plain (amplitudes_ s) ->
  apply_controlled_gate Gates.pauli_x control target
    (apply_controlled_gate Gates.pauli_x control target s) = s.
Proof.
  intros Hs _ Ht Hct Hp.
  set (s1 := apply_controlled_gate Gates.pauli_x control target s).
  assert (Hs1 : n_qubit_state n s1) by (apply apply_controlled_gate_n_qubit, Hs).
  assert (Hp1 : all_plain (amplitudes_ s1)) by (apply (cnot_keeps_plain n); assumption).
  pose proof Hs as (_ & _ & Hsz). pose proof Hs1 as (_ & _ & Hsz1).
  pose proof (apply_controlled_gate_vsize Gates.pauli_x control target s1) as Hv2.
  apply state_ext; [|reflexivity].
  apply list_eq. intros i.
  destruct (Nat.lt_ge_cases i (length (amplitudes_ s))) as [Hi|Hi].
  - assert (Hlt : N.of_nat i < 2 ^ n) by (unfold vsize in Hsz; lia).
    pose proof (cnot_source_lt control target _ n Hlt Ht) as Hsrc.
    rewrite <- (Nat2N.id i).
    destruct (cnot_lookup plain_amplitude eq n s1 control target (N.of_nat i))
      as (a2 & Ha2 & ->); try assumption.
    { reflexivity. }
    { apply pauli_x_row0_plain. }
    { apply pauli_x_row1_plain. }
    destruct (cnot_lookup plain_amplitude eq n s control target
                (cnot_source control target (N.of_nat i)))
      as (a1 & Ha1 & ->); try assumption.
    { reflexivity. }
    { apply pauli_x_row0_plain. }
    { apply pauli_x_row1_plain. }
    rewrite cnot_source_involutive in Ha1 by assumption.
    rewrite Ha2. unfold vget at 1. fold s1 in Ha1. rewrite Ha1. cbn [default].
    symmetry. apply vsize_lookup. lia.
  - rewrite !lookup_ge_None_2; [reflexivity|lia|unfold vsize in *; lia].
Qed.

Lemma cnot_twice_plain_witness :
  n_qubit_state 2 plus_zero /\ 0 < SIZE_WIDTH /\ 1 < 2 /\ 0 <> 1 /\
  all_plain (amplitudes_ plus_zero) /\
  apply_controlled_gate Gates.pauli_x 0 1
    (apply_controlled_gate Gates.pauli_x 0 1 plus_zero) = plus_zero.
Proof.
  assert (Hs : n_qubit_state 2 plus_zero) by (repeat split; vm_compute; reflexivity).
  assert (Ht : 1 < 2) by reflexivity.
  assert (Hct : 0 <> 1) by discriminate.
  assert (Hp : all_plain (amplitudes_ plus_zero)) by evaluate_amplitudes.
  assert (Hc : 0 < SIZE_WIDTH) by reflexivity.
  repeat (split; [assumption|]).
  exact (cnot_twice_plain 2 plus_zero 0 1 Hs Hc Ht Hct Hp).
Defined.

(** ** Normalization *)






















(** The Hadamard gate on real amplitudes. *)
Section Binary64Real.
Local Open Scope Z_scope.


End Binary64Real.





